(** * Hexells: the host of the cellular-automaton engine

    A shallow embedding of [src/hexells.js]: the [Hexells] class that owns
    the canvas, listens to pointer, touch and keyboard events, drives the
    frame loop and issues the calls [step], [draw], [paint], [clearCircle],
    [disturb] and [destroy] on the engine object [this.ca].

    The methods are written in a small state-and-exception monad over a
    [World]: the fields of the instance, the part of the browser the class
    touches (registered listeners, timers, requested animation frames, the
    clock) and the log of the calls issued to the external collaborators.
    A JavaScript call that throws leaves every earlier assignment in place,
    so the monad keeps the world on both outcomes.

    The engine itself ([ca.js]) and the model bank ([models.json]) are not
    part of the sources. The class is modelled against any engine: whether
    a call throws is a parameter, and so are the model names. Where a
    property is about what the engine does with the calls, module [Engine]
    gives the engine of the specification. *)

From Stdlib Require Import ZArith QArith Qround Qminmax List String Ascii Bool Lia.
From Stdlib Require Import Permutation DecimalString Lqa.
Import ListNotations.

Local Open Scope Z_scope.

(** ** JavaScript numbers used as indices *)

(** The values [curModelIndex] and [modelId] can hold: an integer, [NaN]
    (a remainder by zero, or arithmetic on [undefined]) or [undefined]
    (an array read outside its bounds). *)
Inductive value : Type :=
| Num (n : Z)
| NaN
| Undefined.

(** [a + b] on numbers; [undefined] converts to [NaN]. *)
Definition js_add (a b : value) : value :=
  match a, b with
  | Num x, Num y => Num (x + y)
  | _, _ => NaN
  end.

(** [a % b]: the remainder takes the sign of the dividend ([Z.rem]),
    and a zero divisor gives [NaN]. *)
Definition js_rem (a b : value) : value :=
  match a, b with
  | Num x, Num y => if y =? 0 then NaN else Num (Z.rem x y)
  | _, _ => NaN
  end.

(** [arr[v]] for an array of integers: [undefined] outside [0 .. length-1]
    and at the keys [NaN] and [undefined]. *)
Definition js_index (arr : list Z) (v : value) : value :=
  match v with
  | Num i =>
      if i <? 0 then Undefined
      else match nth_error arr (Z.to_nat i) with
           | Some x => Num x
           | None => Undefined
           end
  | _ => Undefined
  end.

(** [a || b] on numbers: [0] is falsy. *)
Definition js_or (a b : Z) : Z := if a =? 0 then b else a.

(** [Math.round]: the nearest integer, halves rounded up. *)
Definition Math_round (q : Q) : Z := Qfloor (q + (1 # 2)).

Definition Qltb (a b : Q) : bool := negb (Qle_bool b a).

(** ** Calls to the external collaborators *)

(** The calls the class issues, with their arguments: [canvas.getContext],
    the construction of the engine, the engine's methods, and
    [twgl.bindFramebufferInfo]. *)
Inductive Call : Type :=
| GetContext (powerPreference : string)
| New (gridSize : Z * Z) (gui : bool)
| Step
| BindFramebufferInfo
| Draw (viewSize : Z * Z) (mode : string)
| Paint (x y radius : Z) (modelId : value)
| ClearCircle (x y radius : Q) (viewSize : Z * Z)
| Disturb
| Destroy.

(** The engine operations that act on the field. *)
Definition is_operation (c : Call) : bool :=
  match c with
  | Step | Draw _ _ | Paint _ _ _ _ | ClearCircle _ _ _ _ | Disturb => true
  | _ => false
  end.

Inductive Error : Type :=
| JsError (message : string)
| TypeError (message : string)
| Thrown (c : Call).

(** ** The instance and the page *)

Record Canvas : Type := mkCanvas {
  width : Z;
  height : Z;
  (** The browser's layout: [clientWidth] and [clientHeight] as a function
      of the [width] and [height] attributes (constant for a canvas sized
      by a style sheet, [(0, 0)] for a canvas that is not rendered). *)
  layout : Z -> Z -> Z * Z;
  classList : list string;
  (** [parentElement] is not [null]. *)
  attached : bool
}.

Definition clientWidth (c : Canvas) : Z := fst (layout c (width c) (height c)).
Definition clientHeight (c : Canvas) : Z := snd (layout c (width c) (height c)).

(** [[canvas.clientWidth || canvas.width, canvas.clientHeight || canvas.height]] *)
Definition viewSizeOf (c : Canvas) : Z * Z :=
  (js_or (clientWidth c) (width c), js_or (clientHeight c) (height c)).

Record Gesture : Type := mkGesture {
  d : Q;
  l : Q;
  prevPos : Q * Q;
  r : Q;
  time : Z;
  u : Q
}.

Record Hexells : Type := mkHexells {
  canvas : Canvas;
  brushRadius : Q;
  stepPerFrame : Q;
  timePerModel : Q;
  responsive : bool;
  fps : Q;
  (** [this.gui] is a [dat.GUI] ([true]) or [null]. *)
  gui : bool;
  (** [undefined] until [setup] runs. *)
  shuffledModelIds : option (list Z);
  curModelIndex : value;
  modelId : value;
  (** [null] or [undefined] is [None]. *)
  gesture : option Gesture
}.

Inductive Listener : Type :=
| OnMouseDown | OnMouseMove | OnMouseUp
| OnTouchStart | OnTouchMove | OnTouchEnd
| OnKeyPress.

Record World : Type := mkWorld {
  this : Hexells;
  (** [window.devicePixelRatio] *)
  devicePixelRatio : Q;
  (** [Date.now()] *)
  now : Z;
  (** handlers registered with [addEventListener], in order *)
  listeners : list Listener;
  (** timers started with [setInterval]; none is ever cleared *)
  intervals : nat;
  (** callbacks pending from [setTimeout] *)
  timeouts : nat;
  (** handles of the animation frames requested and not yet run *)
  frames : list nat;
  nextHandle : nat;
  (** the module variable [hexellsAnimation] *)
  hexellsAnimation : option nat;
  (** the calls issued so far, oldest first *)
  log : list Call
}.

(** *** Field updates *)

Definition set_width (v : Z) (c : Canvas) : Canvas :=
  mkCanvas v (height c) (layout c) (classList c) (attached c).
Definition set_height (v : Z) (c : Canvas) : Canvas :=
  mkCanvas (width c) v (layout c) (classList c) (attached c).
Definition set_layout (v : Z -> Z -> Z * Z) (c : Canvas) : Canvas :=
  mkCanvas (width c) (height c) v (classList c) (attached c).
Definition set_classList (v : list string) (c : Canvas) : Canvas :=
  mkCanvas (width c) (height c) (layout c) v (attached c).
Definition set_attached (v : bool) (c : Canvas) : Canvas :=
  mkCanvas (width c) (height c) (layout c) (classList c) v.

Definition set_canvas (v : Canvas) (h : Hexells) : Hexells :=
  mkHexells v (brushRadius h) (stepPerFrame h) (timePerModel h) (responsive h)
    (fps h) (gui h) (shuffledModelIds h) (curModelIndex h) (modelId h) (gesture h).
Definition set_brushRadius (v : Q) (h : Hexells) : Hexells :=
  mkHexells (canvas h) v (stepPerFrame h) (timePerModel h) (responsive h)
    (fps h) (gui h) (shuffledModelIds h) (curModelIndex h) (modelId h) (gesture h).
Definition set_stepPerFrame (v : Q) (h : Hexells) : Hexells :=
  mkHexells (canvas h) (brushRadius h) v (timePerModel h) (responsive h)
    (fps h) (gui h) (shuffledModelIds h) (curModelIndex h) (modelId h) (gesture h).
Definition set_shuffledModelIds (v : option (list Z)) (h : Hexells) : Hexells :=
  mkHexells (canvas h) (brushRadius h) (stepPerFrame h) (timePerModel h) (responsive h)
    (fps h) (gui h) v (curModelIndex h) (modelId h) (gesture h).
Definition set_curModelIndex (v : value) (h : Hexells) : Hexells :=
  mkHexells (canvas h) (brushRadius h) (stepPerFrame h) (timePerModel h) (responsive h)
    (fps h) (gui h) (shuffledModelIds h) v (modelId h) (gesture h).
Definition set_modelId (v : value) (h : Hexells) : Hexells :=
  mkHexells (canvas h) (brushRadius h) (stepPerFrame h) (timePerModel h) (responsive h)
    (fps h) (gui h) (shuffledModelIds h) (curModelIndex h) v (gesture h).
Definition set_gesture (v : option Gesture) (h : Hexells) : Hexells :=
  mkHexells (canvas h) (brushRadius h) (stepPerFrame h) (timePerModel h) (responsive h)
    (fps h) (gui h) (shuffledModelIds h) (curModelIndex h) (modelId h) v.

Definition set_this (v : Hexells) (w : World) : World :=
  mkWorld v (devicePixelRatio w) (now w) (listeners w) (intervals w) (timeouts w)
    (frames w) (nextHandle w) (hexellsAnimation w) (log w).
Definition set_devicePixelRatio (v : Q) (w : World) : World :=
  mkWorld (this w) v (now w) (listeners w) (intervals w) (timeouts w)
    (frames w) (nextHandle w) (hexellsAnimation w) (log w).
Definition set_now (v : Z) (w : World) : World :=
  mkWorld (this w) (devicePixelRatio w) v (listeners w) (intervals w) (timeouts w)
    (frames w) (nextHandle w) (hexellsAnimation w) (log w).
Definition set_listeners (v : list Listener) (w : World) : World :=
  mkWorld (this w) (devicePixelRatio w) (now w) v (intervals w) (timeouts w)
    (frames w) (nextHandle w) (hexellsAnimation w) (log w).
Definition set_intervals (v : nat) (w : World) : World :=
  mkWorld (this w) (devicePixelRatio w) (now w) (listeners w) v (timeouts w)
    (frames w) (nextHandle w) (hexellsAnimation w) (log w).
Definition set_timeouts (v : nat) (w : World) : World :=
  mkWorld (this w) (devicePixelRatio w) (now w) (listeners w) (intervals w) v
    (frames w) (nextHandle w) (hexellsAnimation w) (log w).
Definition set_frames (v : list nat) (w : World) : World :=
  mkWorld (this w) (devicePixelRatio w) (now w) (listeners w) (intervals w) (timeouts w)
    v (nextHandle w) (hexellsAnimation w) (log w).
Definition set_nextHandle (v : nat) (w : World) : World :=
  mkWorld (this w) (devicePixelRatio w) (now w) (listeners w) (intervals w) (timeouts w)
    (frames w) v (hexellsAnimation w) (log w).
Definition set_hexellsAnimation (v : option nat) (w : World) : World :=
  mkWorld (this w) (devicePixelRatio w) (now w) (listeners w) (intervals w) (timeouts w)
    (frames w) (nextHandle w) v (log w).
Definition set_log (v : list Call) (w : World) : World :=
  mkWorld (this w) (devicePixelRatio w) (now w) (listeners w) (intervals w) (timeouts w)
    (frames w) (nextHandle w) (hexellsAnimation w) v.

(** [window.devicePixelRatio || 1] *)
Definition dprOf (w : World) : Q :=
  if Qeq_bool (devicePixelRatio w) 0 then 1%Q else devicePixelRatio w.

(** ** The monad of methods *)

Inductive Result (A : Type) : Type :=
| Ok (a : A)
| Throw (e : Error).
Arguments Ok {A} a.
Arguments Throw {A} e.

Definition M (A : Type) : Type := World -> World * Result A.

Definition ret {A} (a : A) : M A := fun w => (w, Ok a).

Definition throw {A} (e : Error) : M A := fun w => (w, Throw e).

Definition bind {A B} (m : M A) (k : A -> M B) : M B :=
  fun w =>
    match m w with
    | (w', Ok a) => k a w'
    | (w', Throw e) => (w', Throw e)
    end.

Declare Scope js_scope.
Delimit Scope js_scope with js.
Notation "x <- m ;; k" := (bind m (fun x => k))
  (at level 61, m at next level, right associativity) : js_scope.
Notation "m ;; k" := (bind m (fun _ => k))
  (at level 61, right associativity) : js_scope.
Local Open Scope js_scope.

(** Reads a field of [this]. *)
Definition field {A} (f : Hexells -> A) : M A := fun w => (w, Ok (f (this w))).

(** Assigns fields of [this]. *)
Definition assign (f : Hexells -> Hexells) : M unit :=
  fun w => (set_this (f (this w)) w, Ok tt).

(** Reads and updates the page. *)
Definition page {A} (f : World -> A) : M A := fun w => (w, Ok (f w)).
Definition update (f : World -> World) : M unit := fun w => (f w, Ok tt).

(** The world a method leaves behind, whether it returned or threw. *)
Definition exec {A} (m : M A) (w : World) : World := fst (m w).

(** ** The shuffle of [setup] *)

(** [String([r, i])]: the elements joined by a comma. The random number
    is kept as its rendering, the only thing the sort looks at. *)
Definition pair_toString (p : string * nat) : string :=
  (fst p ++ "," ++ NilEmpty.string_of_uint (Nat.to_uint (snd p)))%string.

(** The order of [Array.prototype.sort] without a comparison function:
    code-unit order of the renderings. *)
Definition sort_before (p q : string * nat) : bool :=
  String.ltb (pair_toString p) (pair_toString q).

(** [sort] is stable: an element stays behind the equal ones before it. *)
Fixpoint insert (p : string * nat) (sorted : list (string * nat)) : list (string * nat) :=
  match sorted with
  | [] => [p]
  | q :: rest => if sort_before q p then q :: insert p rest else p :: q :: rest
  end.

Fixpoint js_sort (a : list (string * nat)) : list (string * nat) :=
  match a with
  | [] => []
  | p :: rest => insert p (js_sort rest)
  end.

(** [names.map((_, i) => [Math.random(), i]).sort().map((p) => p[1])];
    [random i] renders the result of the call of [Math.random] made for
    index [i]. *)
Definition shuffle (random : nat -> string) (names : list string) : list Z :=
  map (fun p => Z.of_nat (snd p))
      (js_sort (map (fun i => (random i, i)) (seq 0 (List.length names)))).

(** ** Construction options *)

Module Options.
(** [HexellsOptions]; an absent property is [None]. *)
Record t : Type := mk {
  powerPreference : option string;
  brushRadius : option Q;
  stepPerFrame : option Q;
  timePerModel : option Q;
  responsive : option bool;
  fps : option Q
}.

(** [{}], the default of the constructor's second parameter. *)
Definition empty : t := mk None None None None None None.
End Options.

(** What the constructor finds in the browser. *)
Record Browser : Type := mkBrowser {
  (** [canvas.getContext("webgl", ...)] returns a context, not [null] *)
  getContext : bool;
  (** [window.WebGLRenderingContext] is defined *)
  WebGLRenderingContext : bool;
  pixelRatio : Q;
  clock : Z
}.

Definition powerOptions : list string :=
  ["high-performance"; "low-power"; "default"]%string.

Definition includes (xs : list string) (s : string) : bool :=
  existsb (String.eqb s) xs.

(** [a ?? b] *)
Definition nullish {A} (a : option A) (b : A) : A :=
  match a with Some x => x | None => b end.

(** [s || b] on strings: the empty string is falsy. *)
Definition str_or (s : option string) (b : string) : string :=
  match s with
  | Some EmptyString | None => b
  | Some x => x
  end.

(** ** Events *)

(** What the event loop delivers to the page: the engine's ready callback
    (with the numbers [Math.random] will render during [setup]), the DOM
    events the class listens to, timer and animation-frame callbacks, and
    the changes of the surroundings the methods read (the clock, the
    layout of the canvas, the device pixel ratio, the [dat.GUI] sliders, a
    call of [destroy()] by the page). *)
Inductive Event : Type :=
| Ready (random : nat -> string)
| MouseDown (offset : Q * Q) (buttons : Z)
| MouseMove (offset : Q * Q) (buttons : Z)
| MouseUp (offset : Q * Q)
| TouchStart (rect : Q * Q) (touches : list (Q * Q))
| TouchMove (rect : Q * Q) (touches : list (Q * Q))
| TouchEnd
| KeyPress (key : string)
| IntervalTick
| TimeoutFire
| AnimationFrame
| ClockAt (t : Z)
| Relayout (f : Z -> Z -> Z * Z)
| PixelRatio (q : Q)
| GuiBrushRadius (q : Q)
| GuiStepPerFrame (n : Z)
| DestroyCall.

Definition is_ready (e : Event) : bool :=
  match e with Ready _ => true | _ => false end.


Section Host.

(** Whether a call to a collaborator throws, given the calls issued before
    it. The engine lives in [ca.js]; the class never catches. *)
Variable throws : list Call -> Call -> bool.

(** [models.model_names] of the bundled [models.json]. *)
Variable model_names : list string.

(** A call is logged when it is issued; it returns or throws. *)
Definition call (c : Call) : M unit :=
  fun w =>
    let w' := set_log (log w ++ [c]) w in
    if throws (log w) c then (w', Throw (Thrown c)) else (w', Ok tt).

(** ** [setModel] and [switchModel] *)

Definition setModel (id : value) : M unit :=
  assign (set_modelId id) ;;
  call (Paint 0 0 (-1) id) ;;
  call Disturb.

Definition switchModel (swipe : Z) : M unit :=
  ids <- field shuffledModelIds ;;
  match ids with
  | None => throw (TypeError "Cannot read properties of undefined (reading 'length')")
  | Some ids =>
      let numModels := Num (Z.of_nat (List.length ids)) in
      cur <- field curModelIndex ;;
      assign (set_curModelIndex
                (js_rem (js_add (js_add cur numModels) (Num swipe)) numModels)) ;;
      cur' <- field curModelIndex ;;
      let id := js_index ids cur' in
      setModel id
  end.


(** ** Gestures *)

Definition getViewSize : M (Z * Z) :=
  field (fun h => viewSizeOf (canvas h)).

Definition startGestue (pos : Q * Q) : M unit :=
  t <- page now ;;
  assign (set_gesture (Some (mkGesture 0 0 pos 0 t 0))).

(** The gesture object is only reachable through [this.gesture]; its
    update in place is the assignment of the updated record. *)
Definition touch (pos : Q * Q) : M unit :=
  let (x, y) := pos in
  g <- field gesture ;;
  match g with
  | Some g =>
      let (x0, y0) := prevPos g in
      assign (set_gesture (Some
        (mkGesture (d g + Qmax (y - y0) 0)
                   (l g + Qmax (x0 - x) 0)
                   pos
                   (r g + Qmax (x - x0) 0)
                   (time g)
                   (u g + Qmax (y0 - y) 0))))
  | None => ret tt
  end ;;
  viewSize <- getViewSize ;;
  radius <- field brushRadius ;;
  call (ClearCircle x y radius viewSize).

Definition endGestue : M unit :=
  g <- field gesture ;;
  match g with
  | None => ret tt
  | Some g =>
      t <- page now ;;
      (if t - time g <? 1000 then
         if Qltb 200 (l g) && Qltb (Qmax (r g) (Qmax (u g) (d g))) (l g * (1 # 4)) then
           switchModel (-1)
         else if Qltb 200 (r g) && Qltb (Qmax (l g) (Qmax (u g) (d g))) (r g * (1 # 4)) then
           switchModel 1
         else ret tt
       else ret tt) ;;
      assign (set_gesture None)
  end.

(** ** The frame loop *)

(** [requestAnimationFrame(() => this.render())]: the only callback ever
    requested, so a pending frame is its handle. *)
Definition requestAnimationFrame : M nat :=
  fun w =>
    let h := nextHandle w in
    (set_nextHandle (S h) (set_frames (frames w ++ [h]) w), Ok h).

Definition cancelAnimationFrame (h : option nat) : M unit :=
  update (fun w =>
            match h with
            | Some h => set_frames (remove Nat.eq_dec h (frames w)) w
            | None => w
            end).

(** [setTimeout(() => { hexellsAnimation = requestAnimationFrame(...) }, this.fps)] *)
Definition setTimeout : M unit :=
  update (fun w => set_timeouts (S (timeouts w)) w).

(** [for (let i = 0; i < this.stepPerFrame; ++i) this.ca.step()], from
    counter [i] on. The loop ends by its own test; [fuel] bounds the
    iterations, and the smallest integer not below [stepPerFrame] is enough
    when the counter starts at 0 ([step_loop_fuel]). *)
Fixpoint step_loop (fuel : nat) (i : Z) : M unit :=
  match fuel with
  | O => ret tt
  | S fuel' =>
      n <- field stepPerFrame ;;
      if Qltb (inject_Z i) n then call Step ;; step_loop fuel' (i + 1) else ret tt
  end.

Definition render : M unit :=
  n <- field stepPerFrame ;;
  step_loop (Z.to_nat (Qceiling n)) 0 ;;
  dpr <- page dprOf ;;
  size <- getViewSize ;;
  let (w, h) := size in
  assign (fun t => set_canvas (set_width (Math_round (inject_Z w * dpr)) (canvas t)) t) ;;
  assign (fun t => set_canvas (set_height (Math_round (inject_Z h * dpr)) (canvas t)) t) ;;
  call BindFramebufferInfo ;;
  viewSize <- getViewSize ;;
  call (Draw viewSize "color") ;;
  setTimeout.

(** ** [setup] and [destroy] *)

(** [classList.add]: a token already present is not added again. *)
Definition classList_add (token : string) (c : Canvas) : Canvas :=
  if includes (classList c) token then c
  else set_classList (classList c ++ [token]) c.

Definition responsive_listeners : list Listener :=
  [OnMouseDown; OnMouseMove; OnMouseUp; OnTouchStart; OnTouchMove; OnTouchEnd; OnKeyPress].

(** The assignment [this.guesture = null] writes a property that nothing
    reads ([this.gesture] is the one in use) and is left out. *)
Definition setup (random : nat -> string) : M unit :=
  assign (fun t => set_canvas (classList_add "hexells" (canvas t)) t) ;;
  assign (set_shuffledModelIds (Some (shuffle random model_names))) ;;
  let ids := shuffle random model_names in
  assign (set_curModelIndex (js_index ids (Num 0))) ;;
  cur <- field curModelIndex ;;
  assign (set_modelId (js_index ids cur)) ;;
  id <- field modelId ;;
  call (Paint 0 0 (-1) id) ;;
  resp <- field responsive ;;
  (if resp then
     update (fun w => set_listeners (listeners w ++ responsive_listeners) w)
   else
     update (fun w => set_intervals (S (intervals w)) w)) ;;
  h <- requestAnimationFrame ;;
  update (set_hexellsAnimation (Some h)).

(** [ca = null] and [canvas = null] clear local variables only. *)
Definition destroy : M unit :=
  h <- page hexellsAnimation ;;
  cancelAnimationFrame h ;;
  update (set_hexellsAnimation None) ;;
  call Destroy ;;
  c <- field canvas ;;
  if attached c then assign (set_canvas (set_attached false c))
  else throw (TypeError "Cannot read properties of null (reading 'removeChild')").

(** ** The constructor *)

Definition gridSize0 : Z * Z := (160, 160).

(** The world of a new instance, or the error thrown, with the calls made
    up to there. The delay [this.fps] is only handed to [setTimeout]; it is
    kept as the exact quotient (a zero [options.fps] gives [Infinity] in
    the source and [0] here). *)
Definition constructor (env : Browser) (canvas : Canvas) (options : Options.t)
  : list Call * Result World :=
  let powerPreference := str_or (Options.powerPreference options) "default" in
  if negb (includes powerOptions powerPreference) then
    ([], Throw (JsError ("Invalid powerPreference: " ++ powerPreference)))
  else
    let log1 := [GetContext powerPreference] in
    if negb (getContext env) then
      if negb (WebGLRenderingContext env) then
        (log1, Throw (JsError "WebGL is not supported by your browser."))
      else
        (log1, Throw (JsError
           "There was an error initializing WebGL. Does your canvas already have a context?"))
    else
      let responsive := nullish (Options.responsive options) false in
      let this :=
        mkHexells canvas
          (nullish (Options.brushRadius options) 16%Q)
          (nullish (Options.stepPerFrame options) 1%Q)
          (nullish (Options.timePerModel options) (20 * 1000)%Q)
          responsive
          (1000 / nullish (Options.fps options) 25)%Q
          responsive
          None Undefined Undefined None in
      let create := New gridSize0 responsive in
      let log2 := log1 ++ [create] in
      if throws log1 create then (log2, Throw (Thrown create))
      else (log2, Ok (mkWorld this (pixelRatio env) (clock env) [] 0 0 [] 0 None log2)).

(** ** Event handlers *)

Fixpoint forEach {A} (f : A -> M unit) (xs : list A) : M unit :=
  match xs with
  | [] => ret tt
  | x :: rest => f x ;; forEach f rest
  end.

(** [touchEvent(cb)]: [cb] runs on each touch, relative to the canvas. *)
Definition touchEvent (cb : Q * Q -> M unit) (rect : Q * Q) (touches : list (Q * Q))
  : M unit :=
  forEach (fun t => cb (fst t - fst rect, snd t - snd rect)%Q) touches.

Definition onMouseDown (pos : Q * Q) (buttons : Z) : M unit :=
  if buttons =? 1 then startGestue pos ;; touch pos else ret tt.

Definition onMouseMove (pos : Q * Q) (buttons : Z) : M unit :=
  if buttons =? 1 then touch pos else ret tt.

Definition onTouchStart (rect : Q * Q) (touches : list (Q * Q)) : M unit :=
  touchEvent (fun pos =>
                (if (List.length touches =? 1)%nat then startGestue pos
                 else assign (set_gesture None)) ;;
                touch pos) rect touches.

Definition onKeyPress (key : string) : M unit :=
  (if String.eqb key "a" then switchModel 1 else ret tt) ;;
  (if String.eqb key "z" then switchModel (-1) else ret tt).

(** The handler a listener runs on an event, if the event is of its type. *)
Definition handler (on : Listener) (e : Event) : option (M unit) :=
  match on, e with
  | OnMouseDown, MouseDown pos buttons => Some (onMouseDown pos buttons)
  | OnMouseMove, MouseMove pos buttons => Some (onMouseMove pos buttons)
  | OnMouseUp, MouseUp _ => Some endGestue
  | OnTouchStart, TouchStart rect touches => Some (onTouchStart rect touches)
  | OnTouchMove, TouchMove rect touches => Some (touchEvent touch rect touches)
  | OnTouchEnd, TouchEnd => Some endGestue
  | OnKeyPress, KeyPress key => Some (onKeyPress key)
  | _, _ => None
  end.

(** Every registered listener of the event's type runs, in order of
    registration; an exception ends the handler it escapes from only. *)
Definition deliver (e : Event) (w : World) : World :=
  fold_left (fun w on =>
               match handler on e with
               | Some m => exec m w
               | None => w
               end) (listeners w) w.

(** One turn of the event loop. *)
Definition dispatch (w : World) (e : Event) : World :=
  match e with
  | Ready random => exec (setup random) w
  | IntervalTick =>
      match intervals w with
      | O => w
      | S _ => exec (switchModel 1) w
      end
  | TimeoutFire =>
      match timeouts w with
      | O => w
      | S n =>
          exec (h <- requestAnimationFrame ;; update (set_hexellsAnimation (Some h)))
               (set_timeouts n w)
      end
  | AnimationFrame =>
      match frames w with
      | [] => w
      | _ :: rest => exec render (set_frames rest w)
      end
  | ClockAt t => set_now t w
  | Relayout f => exec (assign (fun t => set_canvas (set_layout f (canvas t)) t)) w
  | PixelRatio q => set_devicePixelRatio q w
  | GuiBrushRadius q =>
      if gui (this w) then exec (assign (set_brushRadius (Qmax 1 (Qmin 40 q)))) w else w
  | GuiStepPerFrame n =>
      if gui (this w) then
        exec (assign (set_stepPerFrame (inject_Z (Z.max 0 (Z.min 6 n))))) w
      else w
  | DestroyCall => exec destroy w
  | _ => deliver e w
  end.

Definition run (w : World) (es : list Event) : World := fold_left dispatch es w.

End Host.

(** * The engine *)

Module Engine.

(** Modelled from the spec: the error taxonomy of the engine of [ca.js]. *)
Inductive EngineError : Type :=
| AssetFormatError
| UnsupportedModelCountError
| InvalidModelIdError
| UnsupportedRenderModeError
| DeviceLostError
| EngineDestroyedError.

(** Modelled from the spec: what the engine of [ca.js] owns, its two
    state buffers, its model parameter storage and its intermediate pass
    resources. *)
Inductive Resource : Type :=
| StateBuffer (second : bool)
| ModelParameters
| PassResources.

(** Modelled from the spec: the engine class of [ca.js], which is not
    among the sources. The field has the dimensions given at construction
    and two buffers that swap roles at each step; [count] models are
    loaded; the contents of the field are kept as the edits accepted so
    far, in call order, and the number of update passes; the device may be
    lost; [destroy] releases every resource. *)
Record t : Type := mk {
  gridSize : Z * Z;
  count : Z;
  owned : list Resource;
  current : bool;
  passes : nat;
  edits : list Call;
  lost : bool;
  destroyed : bool
}.

(** Modelled from the spec: construction with the grid dimensions and the
    model bank; the engine owns its resources from then on. *)
Definition create (grid : Z * Z) (models : Z) : t :=
  mk grid models
     [StateBuffer false; StateBuffer true; ModelParameters; PassResources]
     false 0 [] false false.

(** Modelled from the spec: an accepted edit acts on the field at once,
    after the edits made before it. *)
Definition edit (c : Call) (e : t) : t :=
  mk (gridSize e) (count e) (owned e) (current e) (passes e) (edits e ++ [c])
     (lost e) (destroyed e).

(** Modelled from the spec: one call on the engine and the error it fails
    with, if any. After [destroy] every call fails with
    [EngineDestroyedError]; a lost device fails the call in progress with
    [DeviceLostError]; [step] completes an update pass and swaps the
    buffers; [draw] reads the field and supports the mode ["color"];
    [paint] takes a model identifier in [[0, count)] and otherwise fails
    with [InvalidModelIdError] and no effect; the edits apply in call
    order. Calls that are not made on the engine object change nothing. *)
Definition perform (e : t) (c : Call) : t * option EngineError :=
  match c with
  | GetContext _ | New _ _ | BindFramebufferInfo => (e, None)
  | _ =>
      if destroyed e then (e, Some EngineDestroyedError)
      else
        match c with
        | Destroy =>
            (mk (gridSize e) (count e) [] (current e) (passes e) (edits e) (lost e) true,
             None)
        | _ =>
            if lost e then (e, Some DeviceLostError)
            else
              match c with
              | Step =>
                  (mk (gridSize e) (count e) (owned e) (negb (current e))
                      (S (passes e)) (edits e) (lost e) (destroyed e),
                   None)
              | Draw _ mode =>
                  if String.eqb mode "color" then (e, None)
                  else (e, Some UnsupportedRenderModeError)
              | Paint _ _ _ (Num id) =>
                  if (0 <=? id) && (id <? count e) then (edit c e, None)
                  else (e, Some InvalidModelIdError)
              | Paint _ _ _ _ => (e, Some InvalidModelIdError)
              | _ => (edit c e, None)
              end
        end
  end.

(** The calls of a log made one after the other: the engine they leave
    and the outcome of each. *)
Fixpoint replay (e : t) (cs : list Call) : t * list (option EngineError) :=
  match cs with
  | [] => (e, [])
  | c :: rest =>
      let (e1, outcome) := perform e c in
      let (e2, outcomes) := replay e1 rest in
      (e2, outcome :: outcomes)
  end.

(** The engine a log of the class builds: created by the [New] call with
    the grid given there, then put through the calls that follow. *)
Fixpoint boot (models : Z) (calls : list Call) : option (t * list (option EngineError)) :=
  match calls with
  | [] => None
  | New grid _ :: rest => Some (replay (create grid models) rest)
  | _ :: rest => boot models rest
  end.

End Engine.

(** ** Notions used in the statements *)

(** The index [switchModel] moves to. *)
Definition next_index (ids : list Z) (cur : value) (swipe : Z) : value :=
  let numModels := Num (Z.of_nat (List.length ids)) in
  js_rem (js_add (js_add cur numModels) (Num swipe)) numModels.

(** [k] calls of [switchModel(swipe)] in a row. *)
Fixpoint switch_times throws (k : nat) (swipe : Z) (w : World) : World :=
  match k with
  | O => w
  | S k' => exec (switchModel throws swipe) (switch_times throws k' swipe w)
  end.

(** An engine that returns from every call. *)
Definition returns : list Call -> Call -> bool := fun _ _ => false.





(** The identifiers of [N] models. *)
Definition model_ids (N : nat) : list Z := map Z.of_nat (seq 0 N).

(** A model identifier of a bank of [N] models. *)
Definition valid_id (N : nat) (id : value) : Prop :=
  exists m, id = Num m /\ 0 <= m < Z.of_nat N.

(** A call that the methods may issue once the instance exists, with an
    acceptable model identifier where it takes one. *)
Definition later_ok (valid : value -> Prop) (c : Call) : Prop :=
  match c with
  | GetContext _ | New _ _ => False
  | Paint _ _ _ id => valid id
  | _ => True
  end.

(** The log of an instance: the context request, the construction of the
    engine on the 160 by 160 grid, then calls of the methods. *)
Definition log_ok (valid : value -> Prop) (calls : list Call) : Prop :=
  exists pp g rest,
    calls = GetContext pp :: New gridSize0 g :: rest /\ Forall (later_ok valid) rest.

(** Once [setup] has run, [shuffledModelIds] is a permutation of the model
    identifiers and [curModelIndex] is an index of it. *)
Definition index_ok (N : nat) (h : Hexells) : Prop :=
  match shuffledModelIds h with
  | None => True
  | Some ids =>
      Permutation ids (model_ids N) /\
      exists i, curModelIndex h = Num i /\ 0 <= i < Z.of_nat N
  end.

Definition Inv (N : nat) (w : World) : Prop :=
  log_ok (valid_id N) (log w) /\ index_ok N (this w).

(** Nothing is registered and no operation has been called. *)
Definition Quiet (w : World) : Prop :=
  listeners w = [] /\ intervals w = O /\ timeouts w = O /\ frames w = [] /\
  filter is_operation (log w) = [].

(** The calls that carry no model identifier and create nothing. *)
Definition benign (c : Call) : bool :=
  match c with
  | Step | BindFramebufferInfo | Draw _ _ | ClearCircle _ _ _ _ | Disturb | Destroy => true
  | _ => false
  end.

(** A method keeps a property of the world, whether it returns or throws. *)
Definition preserves (P : World -> Prop) {A} (m : M A) : Prop :=
  forall w, P w -> P (exec m w).

(** ** Sample inputs *)

(** A canvas laid out at 100 by 50 CSS pixels by a style sheet, on a
    display with two device pixels per CSS pixel. *)
Definition hidpi_canvas : Canvas :=
  mkCanvas 300 150 (fun _ _ => (100, 50)) ["hexells"%string] true.

(** An instance on that canvas after [setup], with three models and the
    first frame requested. *)
Definition hidpi_world : World :=
  mkWorld
    (mkHexells hidpi_canvas 16 1 20000 false 40 false
               (Some [2; 0; 1]) (Num 2) (Num 1) None)
    2 0 [] 1 0 [0%nat] 1 (Some 0%nat)
    [GetContext "default"; New (160, 160) false; Paint 0 0 (-1) (Num 1)].

Definition sample_names : list string := ["coral"; "moss"; "honeycomb"]%string.

(** Three results of [Math.random], as rendered. *)
Definition sample_random (i : nat) : string :=
  match i with
  | O => "0.72"
  | S O => "0.15"
  | _ => "0.4"
  end%string.

Definition sample_browser : Browser := mkBrowser true true 2 0.

(** The instance [new Hexells(canvas)] builds on that browser. *)
Definition sample_new : World :=
  mkWorld
    (mkHexells hidpi_canvas 16 1 (20 * 1000) false (1000 / 25) false
               None Undefined Undefined None)
    2 0 [] 0 0 [] 0 None
    [GetContext "default"; New (160, 160) false].

Definition sample_events : list Event :=
  [Ready sample_random; AnimationFrame; IntervalTick; TimeoutFire;
   Relayout (fun _ _ => (640, 480)); AnimationFrame; IntervalTick; DestroyCall].

(** Events that arrive before the engine is ready. *)
Definition early_events : list Event :=
  [MouseDown (1, 1)%Q 1; KeyPress "a"; IntervalTick; AnimationFrame;
   TouchStart (0, 0)%Q [(3, 4)%Q]; TimeoutFire; GuiStepPerFrame 3; DestroyCall].



Definition sample_operations : list Call :=
  [Step; Draw (100, 50) "color"; Paint 0 0 (-1) (Num 1);
   ClearCircle 3 4 16 (100, 50); Disturb; Paint 0 0 (-1) (Num 7); Draw (1, 1) "depth"].

(** ** Notions used in the further properties *)

(** The method returned. *)
Definition is_ok {A} (r : Result A) : bool :=
  match r with Ok _ => true | Throw _ => false end.

(** What the class asks of the engine and of [twgl], call by call: frames
    are drawn in mode ["color"] and a paint covers the whole field. *)
Definition call_shape (c : Call) : Prop :=
  match c with
  | Draw _ mode => mode = "color"%string
  | Paint x y radius _ => x = 0 /\ y = 0 /\ radius = -1
  | _ => True
  end.

Definition is_clearCircle (c : Call) : bool :=
  match c with ClearCircle _ _ _ _ => true | _ => false end.

(** What the options and the GUI set, and what [setup] registers. *)
Definition instance_settings (h : Hexells) : Q * Q * Q * bool * Q * bool :=
  (brushRadius h, stepPerFrame h, timePerModel h, responsive h, fps h, gui h).

Definition settings (w : World) : Q * Q * Q * bool * Q * bool :=
  instance_settings (this w).

Definition registered (w : World) : list Listener * nat :=
  (listeners w, intervals w).

(** The frames and timeouts that keep the animation going. *)
Definition pending (w : World) : nat := (List.length (frames w) + timeouts w)%nat.

(** Whether the event is one that the listeners of the canvas and of the
    document receive. *)
Definition is_dom (e : Event) : bool :=
  match e with
  | MouseDown _ _ | MouseMove _ _ | MouseUp _
  | TouchStart _ _ | TouchMove _ _ | TouchEnd | KeyPress _ => true
  | _ => false
  end.

Definition is_gui (e : Event) : bool :=
  match e with GuiBrushRadius _ | GuiStepPerFrame _ => true | _ => false end.

(** An instance that does not respond to input: nothing listens and
    nothing was ever erased. *)
Definition Deaf (w : World) : Prop :=
  responsive (this w) = false /\ listeners w = [] /\
  Forall (fun c => is_clearCircle c = false) (log w).

(** The instance [new Hexells(canvas, { responsive: true })] builds. *)
Definition responsive_options : Options.t :=
  Options.mk None None None None (Some true) None.

Definition responsive_new : World :=
  mkWorld
    (mkHexells hidpi_canvas 16 1 (20 * 1000) true (1000 / 25) true
               None Undefined Undefined None)
    2 0 [] 0 0 [] 0 None
    [GetContext "default"; New (160, 160) true].

(** The engine operations of a log, in order. *)
Definition operations (calls : list Call) : list Call := filter is_operation calls.

(** The number of times the ready callback fires in a run of events. *)
Definition ready_count (es : list Event) : nat :=
  List.length (filter is_ready es).

(** The two swipe tests of [endGestue]. *)
Definition swiped_left (g : Gesture) : bool :=
  Qltb 200 (l g) && Qltb (Qmax (r g) (Qmax (u g) (d g))) (l g * (1 # 4)).

Definition swiped_right (g : Gesture) : bool :=
  Qltb 200 (r g) && Qltb (Qmax (l g) (Qmax (u g) (d g))) (r g * (1 # 4)).


(** The selected model is the one at the current index of the shuffled
    list. *)
Definition Consistent (w : World) : Prop :=
  match shuffledModelIds (this w) with
  | None => True
  | Some ids => modelId (this w) = js_index ids (curModelIndex (this w))
  end.


(** * Properties *)

(** ** Reasoning about methods *)

Lemma exec_bind {A B} (m : M A) (k : A -> M B) (w : World) :
  exec (bind m k) w =
  match snd (m w) with
  | Ok a => exec (k a) (exec m w)
  | Throw _ => exec m w
  end.
Proof.
  unfold exec, bind. destruct (m w) as [w' [a | e]]; reflexivity.
Qed.

(** ** [setModel] and [switchModel] *)

Lemma this_setModel throws id w :
  this (exec (setModel throws id) w) = set_modelId id (this w).
Proof.
  unfold setModel, exec, bind, assign, call; cbn.
  destruct (throws _ _); cbn; [reflexivity |].
  destruct (throws _ _); reflexivity.
Qed.

Lemma switchModel_delegates throws swipe w ids :
  shuffledModelIds (this w) = Some ids ->
  switchModel throws swipe w =
  setModel throws (js_index ids (next_index ids (curModelIndex (this w)) swipe))
    (set_this (set_curModelIndex (next_index ids (curModelIndex (this w)) swipe) (this w)) w).
Proof.
  intros Hids. unfold switchModel, bind, field. rewrite Hids. reflexivity.
Qed.

Lemma this_switchModel throws swipe w ids :
  shuffledModelIds (this w) = Some ids ->
  this (exec (switchModel throws swipe) w) =
  set_modelId (js_index ids (next_index ids (curModelIndex (this w)) swipe))
    (set_curModelIndex (next_index ids (curModelIndex (this w)) swipe) (this w)).
Proof.
  intros Hids. unfold exec at 1. rewrite (switchModel_delegates _ _ _ _ Hids).
  apply this_setModel.
Qed.

Lemma next_index_in_range ids i swipe :
  0 <= i < Z.of_nat (List.length ids) ->
  - Z.of_nat (List.length ids) <= swipe ->
  next_index ids (Num i) swipe = Num ((i + swipe) mod Z.of_nat (List.length ids)).
Proof.
  intros Hi Hs. unfold next_index; cbn.
  destruct (Z.eqb_spec (Z.of_nat (List.length ids)) 0) as [E | _]; [lia |].
  f_equal. rewrite Z.rem_mod_nonneg by lia.
  replace (i + Z.of_nat (List.length ids) + swipe)
    with (i + swipe + 1 * Z.of_nat (List.length ids)) by lia.
  apply Z.mod_add. lia.
Qed.

Lemma switch_times_index throws ids swipe k : forall w i,
  shuffledModelIds (this w) = Some ids ->
  curModelIndex (this w) = Num i ->
  0 <= i < Z.of_nat (List.length ids) ->
  - Z.of_nat (List.length ids) <= swipe ->
  let w' := switch_times throws k swipe w in
  shuffledModelIds (this w') = Some ids /\
  curModelIndex (this w') =
    Num ((i + Z.of_nat k * swipe) mod Z.of_nat (List.length ids)) /\
  (k <> O -> modelId (this w') = js_index ids (curModelIndex (this w'))).
Proof.
  induction k as [| k IH]; intros w i Hids Hcur Hi Hs.
  - cbn. repeat split; [assumption | | congruence].
    rewrite Hcur, Z.add_0_r, Z.mod_small by lia. reflexivity.
  - destruct (IH w i Hids Hcur Hi Hs) as (Hids' & Hcur' & _).
    cbv zeta in *. cbn [switch_times].
    rewrite (this_switchModel _ _ _ _ Hids').
    unfold set_modelId, set_curModelIndex;
      cbn [shuffledModelIds curModelIndex modelId].
    rewrite Hcur'.
    rewrite next_index_in_range by (try apply Z.mod_pos_bound; lia).
    repeat split; [assumption | ].
    f_equal. rewrite Zplus_mod_idemp_l. f_equal. lia.
Qed.

(** C1. Starting from an index of the shuffled list, [k] calls of
    [switchModel(1)] followed by [k] calls of [switchModel(-1)], or the
    other way round, bring [curModelIndex] and the selected [modelId] back
    to their values, whatever the engine does with the calls. *)
Theorem switchModel_round_trip throws ids i k w :
  shuffledModelIds (this w) = Some ids ->
  curModelIndex (this w) = Num i ->
  0 <= i < Z.of_nat (List.length ids) ->
  modelId (this w) = js_index ids (Num i) ->
  let forth_back := switch_times throws k (-1) (switch_times throws k 1 w) in
  let back_forth := switch_times throws k 1 (switch_times throws k (-1) w) in
  (curModelIndex (this forth_back) = Num i /\
   modelId (this forth_back) = modelId (this w)) /\
  (curModelIndex (this back_forth) = Num i /\
   modelId (this back_forth) = modelId (this w)).
Proof.
  intros Hids Hcur Hi Hid.
  set (N := Z.of_nat (List.length ids)) in *.
  assert (trip : forall s, (s = 1 \/ s = -1) ->
            let w2 := switch_times throws k (- s) (switch_times throws k s w) in
            curModelIndex (this w2) = Num i /\ modelId (this w2) = modelId (this w)).
  { intros s Hs.
    destruct (switch_times_index throws ids s k w i Hids Hcur Hi) as (H1 & H2 & _);
      [fold N; lia |].
    destruct (switch_times_index throws ids (- s) k _ _ H1 H2) as (H3 & H4 & H5);
      [apply Z.mod_pos_bound; fold N; lia | fold N; lia |].
    fold N in H2, H4.
    assert (E : ((i + Z.of_nat k * s) mod N + Z.of_nat k * - s) mod N = i).
    { rewrite Zplus_mod_idemp_l.
      replace (i + Z.of_nat k * s + Z.of_nat k * - s) with i by lia.
      apply Z.mod_small; lia. }
    cbv zeta. rewrite E in H4. split; [exact H4 |].
    destruct k as [| k'].
    - reflexivity.
    - rewrite H5 by discriminate. rewrite H4. symmetry; exact Hid. }
  split.
  - apply (trip 1); left; reflexivity.
  - apply (trip (-1)); right; reflexivity.
Qed.

(** C7. [setModel(id)] records [id], repaints the whole field with it
    through [paint(0, 0, -1, id)] and, once that call has returned, calls
    [disturb()]: one call each, in this order. [switchModel] moves the
    index and hands the identifier found there to [setModel]. *)
Theorem setModel_paints_then_disturbs throws id w :
  throws (log w) (Paint 0 0 (-1) id) = false ->
  log (exec (setModel throws id) w) = log w ++ [Paint 0 0 (-1) id; Disturb] /\
  modelId (this (exec (setModel throws id) w)) = id /\
  (forall swipe ids,
      shuffledModelIds (this w) = Some ids ->
      let cur := next_index ids (curModelIndex (this w)) swipe in
      switchModel throws swipe w =
      setModel throws (js_index ids cur)
        (set_this (set_curModelIndex cur (this w)) w)).
Proof.
  intros Hpaint. split; [| split].
  - unfold setModel, exec, bind, assign, call; cbn. rewrite Hpaint; cbn.
    destruct (throws (log w ++ _) _); cbn; rewrite <- app_assoc; reflexivity.
  - rewrite this_setModel. reflexivity.
  - intros swipe ids Hids. apply switchModel_delegates, Hids.
Qed.

(** ** The frame *)

Lemma set_log_same (w : World) : set_log (log w ++ []) w = w.
Proof. destruct w; unfold set_log; cbn. rewrite app_nil_r. reflexivity. Qed.

Lemma Qltb_inject_ceiling (i : Z) (q : Q) :
  Qltb (inject_Z i) q = (i <? Qceiling q).
Proof.
  unfold Qltb. destruct (Z.ltb_spec i (Qceiling q)) as [Hlt | Hge].
  - destruct (Qle_bool q (inject_Z i)) eqn:Hle; [| reflexivity].
    apply Qle_bool_iff in Hle. exfalso.
    assert (H1 : (inject_Z (Qceiling q - 1) < q)%Q) by apply Qceiling_lt.
    assert (H2 : (inject_Z i <= inject_Z (Qceiling q - 1))%Q)
      by (rewrite <- Zle_Qle; lia).
    apply (Qlt_irrefl q).
    eapply Qle_lt_trans; [exact Hle |]. eapply Qle_lt_trans; eassumption.
  - assert (Hle : (q <= inject_Z i)%Q).
    { eapply Qle_trans; [apply Qle_ceiling |]. rewrite <- Zle_Qle. exact Hge. }
    apply Qle_bool_iff in Hle. rewrite Hle. reflexivity.
Qed.

Lemma step_loop_returns throws fuel : forall i w,
  (forall hist c, throws hist c = false) ->
  step_loop throws fuel i w =
  (set_log (log w ++ repeat Step
              (Nat.min fuel (Z.to_nat (Qceiling (stepPerFrame (this w)) - i)))) w,
   Ok tt).
Proof.
  induction fuel as [| fuel IH]; intros i w Hret.
  - cbn. rewrite set_log_same. reflexivity.
  - cbn [step_loop]. unfold bind at 1, field at 1.
    rewrite Qltb_inject_ceiling.
    set (n := Qceiling (stepPerFrame (this w))).
    destruct (Z.ltb_spec i n) as [Hlt | Hge].
    + unfold bind, call. rewrite Hret. rewrite (IH _ _ Hret).
      cbn [this set_log log]. fold n.
      replace (Z.to_nat (n - i)) with (S (Z.to_nat (n - (i + 1)))) by lia.
      cbn [Nat.min repeat]. unfold set_log; cbn.
      rewrite <- app_assoc. reflexivity.
    + replace (Z.to_nat (n - i)) with O by lia.
      rewrite Nat.min_0_r. cbn. rewrite set_log_same. reflexivity.
Qed.

(** The fuel [render] gives the loop is enough, whatever the engine does:
    with more fuel the loop does the same. *)
Lemma step_loop_fuel throws fuel : forall extra i w,
  (Z.to_nat (Qceiling (stepPerFrame (this w)) - i) <= fuel)%nat ->
  step_loop throws (fuel + extra) i w = step_loop throws fuel i w.
Proof.
  induction fuel as [| fuel IH]; intros extra i w Hfuel.
  - destruct extra as [| extra]; [reflexivity |].
    cbn [Nat.add step_loop]. unfold bind at 1, field at 1.
    rewrite Qltb_inject_ceiling.
    destruct (Z.ltb_spec i (Qceiling (stepPerFrame (this w)))); [lia | reflexivity].
  - cbn [Nat.add step_loop]. unfold bind at 1 3, field at 1 2.
    destruct (Qltb (inject_Z i) (stepPerFrame (this w))) eqn:Htest; [| reflexivity].
    rewrite Qltb_inject_ceiling in Htest. apply Z.ltb_lt in Htest.
    unfold bind, call. destruct (throws (log w) Step); [reflexivity |].
    apply IH. cbn [this set_log]. lia.
Qed.

Lemma render_returns throws w :
  (forall hist c, throws hist c = false) ->
  let n := Z.to_nat (Qceiling (stepPerFrame (this w))) in
  let size := viewSizeOf (canvas (this w)) in
  let c' := set_height (Math_round (inject_Z (snd size) * dprOf w))
              (set_width (Math_round (inject_Z (fst size) * dprOf w))
                 (canvas (this w))) in
  exec (render throws) w =
  set_timeouts (S (timeouts w))
    (set_log (log w ++ repeat Step n ++ [BindFramebufferInfo; Draw (viewSizeOf c') "color"])
       (set_this (set_canvas c' (this w)) w)).
Proof.
  intros Hret n size c'. unfold exec, render.
  unfold bind at 1, field at 1. unfold bind at 1.
  rewrite (step_loop_returns _ _ _ _ Hret).
  rewrite Z.sub_0_r, Nat.min_id. fold n.
  unfold bind, page, getViewSize, field, assign, call, setTimeout, update.
  cbn [this set_log log dprOf]. fold size. destruct size as [cw ch] eqn:Esize.
  cbn. rewrite !Hret. cbn. unfold set_timeouts, set_log, set_this; cbn.
  rewrite <- !app_assoc. reflexivity.
Qed.

(** C3. A frame whose [stepPerFrame] is the count [n] issues exactly [n]
    calls of [step], then binds the canvas framebuffer and issues one call
    of [draw] in mode ["color"], and nothing else; with [n = 0] it only
    draws. Every requested animation frame runs [render]. The engine is
    taken to return from its calls. *)
Theorem render_steps_then_draws throws (n : nat) w :
  (forall hist c, throws hist c = false) ->
  (stepPerFrame (this w) == inject_Z (Z.of_nat n))%Q ->
  let w' := exec (render throws) w in
  log w' = log w ++ repeat Step n
             ++ [BindFramebufferInfo; Draw (viewSizeOf (canvas (this w'))) "color"] /\
  (n = O ->
   log w' = log w ++ [BindFramebufferInfo; Draw (viewSizeOf (canvas (this w'))) "color"]) /\
  (forall names h rest,
      frames w = h :: rest ->
      dispatch throws names w AnimationFrame = exec (render throws) (set_frames rest w)).
Proof.
  intros Hret Hn w'.
  assert (Hlog : log w' = log w ++ repeat Step n
             ++ [BindFramebufferInfo; Draw (viewSizeOf (canvas (this w'))) "color"]).
  { subst w'. rewrite (render_returns _ _ Hret). cbn [log set_timeouts set_log this
      set_this canvas set_canvas].
    rewrite (Qceiling_comp _ _ Hn), Qceiling_Z, Nat2Z.id. reflexivity. }
  split; [exact Hlog | split].
  - intros ->. exact Hlog.
  - intros names h rest Hframes. cbn. rewrite Hframes. reflexivity.
Qed.



(** ** Gestures *)






(** ** The constructor *)

(** C9 as amended. A [powerPreference] that is a non-empty string outside
    [powerOptions] makes the constructor throw before any call is made: no
    context, no engine. An absent or empty [powerPreference] is replaced
    by ["default"], with which the context is requested; the instance is
    built when the context is there and the engine's constructor returns. *)
Theorem constructor_checks_powerPreference throws env canvas options s :
  Options.powerPreference options = Some s ->
  s <> EmptyString ->
  includes powerOptions s = false ->
  constructor throws env canvas options =
    ([], Throw (JsError ("Invalid powerPreference: " ++ s))) /\
  (forall options',
      Options.powerPreference options' = None \/
      Options.powerPreference options' = Some EmptyString ->
      exists rest result,
        constructor throws env canvas options' = (GetContext "default" :: rest, result) /\
        (getContext env = true ->
         throws [GetContext "default"]
                (New gridSize0 (nullish (Options.responsive options') false)) = false ->
         exists w, result = Ok w /\
                   log w = [GetContext "default";
                            New gridSize0 (nullish (Options.responsive options') false)])).
Proof.
  intros Hs Hne Hnot. split.
  - unfold constructor. rewrite Hs.
    assert (E : str_or (Some s) "default" = s) by (destruct s; [congruence | reflexivity]).
    rewrite E, Hnot. reflexivity.
  - intros options' Hpp. unfold constructor.
    assert (E : str_or (Options.powerPreference options') "default" = "default"%string)
      by (destruct Hpp as [-> | ->]; reflexivity).
    rewrite E. cbn [includes powerOptions existsb String.eqb Ascii.eqb Bool.eqb negb orb].
    cbn.
    destruct (getContext env); cbn.
    + destruct (throws _ _) eqn:Hnew; eexists; eexists; (split; [reflexivity |]).
      * intros _ H. discriminate H.
      * intros _ _. eexists. split; reflexivity.
    + destruct (WebGLRenderingContext env); eexists; eexists;
        (split; [reflexivity | intros H; discriminate H]).
Qed.

(** C9 as stated fails: the empty string is a [powerPreference] that is
    present and is none of the three options, and the constructor does not
    throw; it goes on with ["default"]. *)
Lemma constructor_empty_powerPreference_counterexample :
  let options := Options.mk (Some EmptyString) None None None None None in
  Options.powerPreference options = Some EmptyString /\
  includes powerOptions EmptyString = false /\
  exists w,
    constructor returns (mkBrowser true true 1 0) hidpi_canvas options =
      ([GetContext "default"; New (160, 160) false], Ok w).
Proof.
  cbv zeta. split; [reflexivity | split; [reflexivity |]].
  eexists. reflexivity.
Qed.

(** ** After [destroy] *)

Lemma log_destroy throws w :
  log (exec (destroy throws) w) = log w ++ [Destroy].
Proof.
  unfold destroy, exec, bind, page, cancelAnimationFrame, update, call, field; cbn.
  destruct (hexellsAnimation w); cbn;
    (destruct (throws _ _); cbn; [reflexivity |]);
    destruct (attached (canvas (this w))); reflexivity.
Qed.

Lemma perform_destroyed e c :
  Engine.destroyed e = true ->
  is_operation c = true ->
  Engine.perform e c = (e, Some Engine.EngineDestroyedError).
Proof.
  intros He Hc. destruct c; try discriminate Hc; cbn; rewrite He; reflexivity.
Qed.

Lemma replay_destroyed cs : forall e,
  Engine.destroyed e = true ->
  Forall (fun c => is_operation c = true) cs ->
  Engine.replay e cs = (e, map (fun _ => Some Engine.EngineDestroyedError) cs).
Proof.
  induction cs as [| c cs IH]; intros e He Hcs.
  - reflexivity.
  - inversion Hcs as [| ? ? Hc Hrest]; subst.
    cbn [Engine.replay map]. rewrite (perform_destroyed _ _ He Hc).
    rewrite (IH _ He Hrest). reflexivity.
Qed.

(** C5. [destroy()] of the class calls [destroy] on the engine. On an
    engine in use that call succeeds and releases everything the engine
    owns; from then on each of [step], [draw], [paint], [clearCircle] and
    [disturb] fails with [EngineDestroyedError], also on a lost device or
    with arguments that would fail otherwise, and changes nothing. *)
Theorem destroyed_engine_rejects_operations throws w e cs :
  Engine.destroyed e = false ->
  Forall (fun c => is_operation c = true) cs ->
  let e' := fst (Engine.perform e Destroy) in
  log (exec (destroy throws) w) = log w ++ [Destroy] /\
  snd (Engine.perform e Destroy) = None /\
  Engine.owned e' = [] /\
  Engine.replay e' cs = (e', map (fun _ => Some Engine.EngineDestroyedError) cs).
Proof.
  intros He Hcs e'. split; [apply log_destroy |].
  subst e'. cbn. rewrite He. cbn. repeat split.
  apply replay_destroyed; [reflexivity | exact Hcs].
Qed.

(** ** The shuffle *)

Lemma insert_perm p sorted : Permutation (insert p sorted) (p :: sorted).
Proof.
  induction sorted as [| q rest IH]; cbn.
  - reflexivity.
  - destruct (sort_before q p).
    + rewrite IH. apply perm_swap.
    + reflexivity.
Qed.

Lemma js_sort_perm a : Permutation (js_sort a) a.
Proof.
  induction a as [| p rest IH]; cbn.
  - reflexivity.
  - rewrite insert_perm. apply perm_skip, IH.
Qed.

Lemma shuffle_perm random names :
  Permutation (shuffle random names) (model_ids (List.length names)).
Proof.
  unfold shuffle, model_ids.
  rewrite js_sort_perm, map_map. cbn. reflexivity.
Qed.

Lemma model_ids_range N x : In x (model_ids N) <-> 0 <= x < Z.of_nat N.
Proof.
  unfold model_ids. rewrite in_map_iff. split.
  - intros (n & <- & Hn). apply in_seq in Hn. lia.
  - intros Hx. exists (Z.to_nat x). split; [lia | apply in_seq; lia].
Qed.

Lemma model_ids_length N : List.length (model_ids N) = N.
Proof. unfold model_ids. rewrite length_map, length_seq. reflexivity. Qed.

(** Reading a permutation of the identifiers at an index gives an
    identifier. *)
Lemma js_index_perm N ids i :
  Permutation ids (model_ids N) ->
  0 <= i < Z.of_nat N ->
  exists m, js_index ids (Num i) = Num m /\ 0 <= m < Z.of_nat N.
Proof.
  intros Hperm Hi. unfold js_index.
  destruct (Z.ltb_spec i 0) as [? | _]; [lia |].
  destruct (nth_error ids (Z.to_nat i)) as [x |] eqn:Hnth.
  - exists x. split; [reflexivity |].
    apply model_ids_range. eapply Permutation_in; [exact Hperm |].
    eapply nth_error_In; exact Hnth.
  - apply nth_error_None in Hnth.
    rewrite (Permutation_length Hperm), model_ids_length in Hnth. lia.
Qed.

(** ** Invariants of the event loop *)

Lemma preserves_bind P {A B} (m : M A) (k : A -> M B) :
  preserves P m -> (forall a, preserves P (k a)) -> preserves P (bind m k).
Proof.
  intros Hm Hk w Hw. rewrite exec_bind.
  destruct (snd (m w)); [apply Hk |]; apply Hm, Hw.
Qed.

Lemma preserves_ret P {A} (a : A) : preserves P (ret a).
Proof. intros w Hw. exact Hw. Qed.

Lemma preserves_throw P {A} e : preserves P (@throw A e).
Proof. intros w Hw. exact Hw. Qed.

Lemma preserves_field P {A} (f : Hexells -> A) : preserves P (field f).
Proof. intros w Hw. exact Hw. Qed.

Lemma preserves_page P {A} (f : World -> A) : preserves P (page f).
Proof. intros w Hw. exact Hw. Qed.

Lemma preserves_forEach P {A} (f : A -> M unit) xs :
  (forall x, preserves P (f x)) -> preserves P (forEach f xs).
Proof.
  intros Hf. induction xs as [| x rest IH]; cbn [forEach].
  - apply preserves_ret.
  - apply preserves_bind; [apply Hf | intros _; exact IH].
Qed.

Create HintDb preserves.

#[local] Hint Resolve preserves_ret preserves_throw preserves_field preserves_page
  : preserves.

Section Invariants.

Variable throws : list Call -> Call -> bool.
Variable model_names : list string.
Variable P : World -> Prop.

(** [P] looks at the log, the shuffled list, the current index and the
    gesture only. *)
Hypothesis P_frame : forall w w',
  shuffledModelIds (this w') = shuffledModelIds (this w) ->
  curModelIndex (this w') = curModelIndex (this w) ->
  gesture (this w') = gesture (this w) ->
  log w' = log w ->
  P w -> P w'.

Hypothesis P_call : forall w c,
  benign c = true -> P w -> P (set_log (log w ++ [c]) w).

Hypothesis P_switch : forall swipe,
  swipe = 1 \/ swipe = -1 -> preserves P (switchModel throws swipe).

Hypothesis P_setup : forall random, preserves P (setup throws model_names random).

Lemma pres_call c : benign c = true -> preserves P (call throws c).
Proof.
  intros Hc w Hw. unfold exec, call.
  destruct (throws (log w) c); cbn [fst]; apply P_call; assumption.
Qed.

Lemma pres_assign f :
  (forall h, shuffledModelIds (f h) = shuffledModelIds h) ->
  (forall h, curModelIndex (f h) = curModelIndex h) ->
  (forall h, gesture (f h) = gesture h) ->
  preserves P (assign f).
Proof.
  intros H1 H2 H3 w Hw. unfold exec, assign; cbn [fst].
  apply (P_frame w); cbn; auto.
Qed.

Lemma pres_update f :
  (forall w, this (f w) = this w) ->
  (forall w, log (f w) = log w) ->
  preserves P (update f).
Proof.
  intros H1 H2 w Hw. unfold exec, update; cbn [fst].
  apply (P_frame w); [rewrite H1 | rewrite H1 | rewrite H1 | rewrite H2 |]; auto.
Qed.

Ltac pres_with tac :=
  repeat first
    [ tac
    | match goal with
      | |- preserves _ (switchModel _ _) => apply P_switch; auto
      end
    | apply preserves_bind; [| intros ?]
    | solve [auto with preserves]
    | apply pres_call; reflexivity
    | apply pres_assign; intros; reflexivity
    | apply pres_update; intros; reflexivity
    | match goal with
      | |- preserves _ (match ?x with _ => _ end) => destruct x
      end ].

Ltac pres := pres_with fail.

(** [touch] keeps [P] when the assignments of [this.gesture] do. *)
Lemma touch_preserves pos :
  (forall v, preserves P (assign (set_gesture v))) ->
  preserves P (touch throws pos).
Proof.
  intros Hg. unfold touch. destruct pos as [x y]. unfold getViewSize.
  pres; apply Hg.
Qed.

Lemma pres_step_loop fuel : forall i, preserves P (step_loop throws fuel i).
Proof.
  induction fuel as [| fuel IH]; intros i; cbn [step_loop]; pres; apply IH.
Qed.

Lemma pres_render : preserves P (render throws).
Proof.
  unfold render, getViewSize, setTimeout. pres. apply pres_step_loop.
Qed.

Lemma pres_destroy : preserves P (destroy throws).
Proof.
  unfold destroy, cancelAnimationFrame. pres.
  apply pres_update; intros w; destruct a; reflexivity.
Qed.

Lemma pres_deliver_with e w :
  (forall on m, handler throws on e = Some m -> preserves P m) ->
  P w -> P (deliver throws e w).
Proof.
  intros Hhandler. unfold deliver. generalize (listeners w). intros ls. revert w.
  induction ls as [| on ls IH]; intros w Hw; cbn [fold_left].
  - exact Hw.
  - apply IH. destruct (handler throws on e) as [m |] eqn:Hm; [| exact Hw].
    eapply Hhandler; eassumption.
Qed.

Lemma pres_dispatch_with e w :
  (forall on m, handler throws on e = Some m -> preserves P m) ->
  P w -> P (dispatch throws model_names w e).
Proof.
  intros Hhandler Hw.
  destruct e; try (apply pres_deliver_with; assumption); cbn [dispatch].
  - apply P_setup, Hw.
  - destruct (intervals w); [exact Hw | apply P_switch; auto].
  - destruct (timeouts w); [exact Hw |].
    assert (H : preserves P (h <- requestAnimationFrame ;; update (set_hexellsAnimation (Some h)))).
    { pres. }
    apply H. apply (P_frame w); auto.
  - destruct (frames w); [exact Hw |].
    apply pres_render. apply (P_frame w); auto.
  - apply (P_frame w); auto.
  - revert Hw. apply pres_assign; intros; reflexivity.
  - apply (P_frame w); auto.
  - destruct (gui (this w)); [| exact Hw].
    revert Hw. apply pres_assign; intros; reflexivity.
  - destruct (gui (this w)); [| exact Hw].
    revert Hw. apply pres_assign; intros; reflexivity.
  - apply pres_destroy, Hw.
Qed.

(** *** While a gesture stays open *)

Hypothesis P_touch : forall pos, preserves P (touch throws pos).



(** *** Over all events *)

Hypothesis P_gesture : forall v, preserves P (assign (set_gesture v)).

Lemma pres_handler on e m :
  handler throws on e = Some m -> preserves P m.
Proof.
  destruct on, e; cbn; intros H; try discriminate H;
    injection H as <-;
    unfold onMouseDown, onMouseMove, onTouchStart, onKeyPress, touchEvent,
           startGestue, endGestue;
    try (apply preserves_forEach; intros t);
    pres_with ltac:(idtac; match goal with
                    | |- preserves _ (touch _ _) => apply P_touch
                    | |- preserves _ (assign (set_gesture _)) => apply P_gesture
                    end).
Qed.

Lemma pres_run es : forall w, P w -> P (run throws model_names w es).
Proof.
  induction es as [| e es IH]; intros w Hw; cbn [run fold_left].
  - exact Hw.
  - apply IH, pres_dispatch_with; [intros on m; apply pres_handler | exact Hw].
Qed.

End Invariants.

(** ** What [setModel], [switchModel] and [setup] log *)

Lemma log_setModel throws id w :
  exists tail,
    log (exec (setModel throws id) w) = log w ++ Paint 0 0 (-1) id :: tail /\
    (tail = [] \/ tail = [Disturb]).
Proof.
  unfold setModel, exec, bind, assign, call; cbn.
  destruct (throws (log w) _); cbn.
  - exists []. split; [reflexivity | left; reflexivity].
  - exists [Disturb]. split; [| right; reflexivity].
    destruct (throws _ _); cbn; rewrite <- app_assoc; reflexivity.
Qed.

Lemma log_switchModel throws swipe w :
  log (exec (switchModel throws swipe) w) = log w \/
  exists ids tail,
    shuffledModelIds (this w) = Some ids /\
    log (exec (switchModel throws swipe) w) =
      log w ++ Paint 0 0 (-1)
                 (js_index ids (next_index ids (curModelIndex (this w)) swipe)) :: tail /\
    (tail = [] \/ tail = [Disturb]).
Proof.
  destruct (shuffledModelIds (this w)) as [ids |] eqn:Hids.
  - right. unfold exec. rewrite (switchModel_delegates _ _ _ _ Hids).
    destruct (log_setModel throws
                (js_index ids (next_index ids (curModelIndex (this w)) swipe))
                (set_this (set_curModelIndex
                   (next_index ids (curModelIndex (this w)) swipe) (this w)) w))
      as (tail & Hlog & Htail).
    exists ids, tail. repeat split; assumption.
  - left. unfold switchModel, exec, bind, field. rewrite Hids. reflexivity.
Qed.

Lemma setup_effect throws names random w :
  let ids := shuffle random names in
  let w' := exec (setup throws names random) w in
  shuffledModelIds (this w') = Some ids /\
  curModelIndex (this w') = js_index ids (Num 0) /\
  log w' = log w ++ [Paint 0 0 (-1) (js_index ids (js_index ids (Num 0)))].
Proof.
  cbv zeta. unfold setup, exec, bind, assign, field, call; cbn.
  destruct (throws _ _); cbn; [repeat split |].
  destruct (responsive (this w)); cbn; repeat split.
Qed.

Lemma log_ok_snoc valid calls c :
  log_ok valid calls -> later_ok valid c -> log_ok valid (calls ++ [c]).
Proof.
  intros (pp & g & rest & -> & Hrest) Hc.
  exists pp, g, (rest ++ [c]). split; [reflexivity |].
  apply Forall_app. split; [exact Hrest | constructor; [exact Hc | constructor]].
Qed.

Lemma log_ok_paint valid calls id tail :
  log_ok valid calls -> valid id -> tail = [] \/ tail = [Disturb] ->
  log_ok valid (calls ++ Paint 0 0 (-1) id :: tail).
Proof.
  intros Hok Hid [-> | ->].
  - apply log_ok_snoc; assumption.
  - change (Paint 0 0 (-1) id :: [Disturb]) with ([Paint 0 0 (-1) id] ++ [Disturb]).
    rewrite app_assoc. apply log_ok_snoc; [apply log_ok_snoc; assumption | exact I].
Qed.

Lemma later_ok_benign valid c : benign c = true -> later_ok valid c.
Proof. destruct c; cbn; intros H; try discriminate H; exact I. Qed.

(** ** The model identifiers that reach [paint] *)

Lemma Inv_frame N w w' :
  shuffledModelIds (this w') = shuffledModelIds (this w) ->
  curModelIndex (this w') = curModelIndex (this w) ->
  log w' = log w ->
  Inv N w -> Inv N w'.
Proof.
  intros H1 H2 H3 [Hlog Hidx]. unfold Inv, index_ok. rewrite H1, H2, H3.
  split; assumption.
Qed.

Lemma Inv_call N w c : benign c = true -> Inv N w -> Inv N (set_log (log w ++ [c]) w).
Proof.
  intros Hc [Hlog Hidx]. split; [| exact Hidx].
  cbn. apply log_ok_snoc; [exact Hlog | apply later_ok_benign, Hc].
Qed.

Lemma Inv_switch throws N swipe :
  swipe = 1 \/ swipe = -1 -> preserves (Inv N) (switchModel throws swipe).
Proof.
  intros Hs w [Hlog Hidx].
  destruct (shuffledModelIds (this w)) as [ids |] eqn:Hids.
  - unfold index_ok in Hidx. rewrite Hids in Hidx.
    destruct Hidx as (Hperm & i & Hcur & Hi).
    assert (Hlen : List.length ids = N)
      by (rewrite (Permutation_length Hperm); apply model_ids_length).
    assert (Hnext : next_index ids (Num i) swipe = Num ((i + swipe) mod Z.of_nat N)).
    { rewrite <- Hlen. apply next_index_in_range; rewrite Hlen; lia. }
    assert (Hrange : 0 <= (i + swipe) mod Z.of_nat N < Z.of_nat N)
      by (apply Z.mod_pos_bound; lia).
    split.
    + destruct (log_switchModel throws swipe w)
        as [-> | (ids' & tail & Hids' & -> & Htail)]; [exact Hlog |].
      rewrite Hids in Hids'. injection Hids' as <-.
      apply log_ok_paint; [exact Hlog | | exact Htail].
      rewrite Hcur, Hnext. apply (js_index_perm N); assumption.
    + unfold index_ok. rewrite (this_switchModel _ _ _ _ Hids).
      unfold set_modelId, set_curModelIndex; cbn [shuffledModelIds curModelIndex].
      rewrite Hids. split; [exact Hperm |].
      rewrite Hcur, Hnext. eexists; split; [reflexivity | exact Hrange].
  - assert (E : exec (switchModel throws swipe) w = w)
      by (unfold switchModel, exec, bind, field; rewrite Hids; reflexivity).
    rewrite E. split; assumption.
Qed.

Lemma Inv_setup throws names random :
  names <> [] -> preserves (Inv (List.length names)) (setup throws names random).
Proof.
  intros Hne w [Hlog _].
  destruct (setup_effect throws names random w) as (Hids & Hcur & Hlog').
  assert (HN : 0 < Z.of_nat (List.length names))
    by (destruct names; [congruence | cbn; lia]).
  destruct (js_index_perm (List.length names) (shuffle random names) 0
              (shuffle_perm random names)) as (i & Hi & Hirange); [lia |].
  destruct (js_index_perm (List.length names) (shuffle random names) i
              (shuffle_perm random names) Hirange) as (m & Hm & Hmrange).
  split.
  - rewrite Hlog'. apply log_ok_snoc; [exact Hlog |].
    unfold later_ok. rewrite Hi, Hm. exists m. split; [reflexivity | exact Hmrange].
  - unfold index_ok. rewrite Hids, Hcur. split; [apply shuffle_perm |].
    exists i. split; assumption.
Qed.

Lemma constructor_log throws env canvas options calls w0 :
  constructor throws env canvas options = (calls, Ok w0) ->
  exists pp g,
    log w0 = [GetContext pp; New gridSize0 g] /\
    calls = log w0 /\
    shuffledModelIds (this w0) = None /\
    listeners w0 = [] /\ intervals w0 = O /\ timeouts w0 = O /\ frames w0 = [].
Proof.
  unfold constructor.
  destruct (negb (includes _ _)); [discriminate |].
  destruct (negb (getContext env)).
  - destruct (negb (WebGLRenderingContext env)); discriminate.
  - destruct (throws _ _); [discriminate |].
    intros H. injection H as <- <-. cbn.
    eexists; eexists. repeat split.
Qed.

Lemma Inv_run throws names env canvas options calls w0 es :
  names <> [] ->
  constructor throws env canvas options = (calls, Ok w0) ->
  Inv (List.length names) (run throws names w0 es).
Proof.
  intros Hne Hctor.
  assert (Hg : forall v, preserves (Inv (List.length names)) (assign (set_gesture v))).
  { intros v w. apply Inv_frame; reflexivity. }
  assert (Hframe : forall w w',
             shuffledModelIds (this w') = shuffledModelIds (this w) ->
             curModelIndex (this w') = curModelIndex (this w) ->
             gesture (this w') = gesture (this w) ->
             log w' = log w -> Inv (List.length names) w -> Inv (List.length names) w')
    by (intros w w' H1 H2 _ H3; apply Inv_frame; assumption).
  apply pres_run.
  - exact Hframe.
  - intros w c. apply Inv_call.
  - apply Inv_switch.
  - intros random. apply Inv_setup, Hne.
  - intros pos. apply touch_preserves; [intros w c; apply Inv_call | exact Hg].
  - exact Hg.
  - destruct (constructor_log _ _ _ _ _ _ Hctor) as (pp & g & Hlog & _ & Hids & _).
    split.
    + exists pp, g, []. split; [exact Hlog | constructor].
    + unfold index_ok. rewrite Hids. exact I.
Qed.

Lemma js_index_In ids i :
  0 <= i < Z.of_nat (List.length ids) ->
  exists m, js_index ids (Num i) = Num m /\ In m ids.
Proof.
  intros Hi. unfold js_index.
  destruct (Z.ltb_spec i 0) as [? | _]; [lia |].
  destruct (nth_error ids (Z.to_nat i)) as [x |] eqn:Hnth.
  - exists x. split; [reflexivity | eapply nth_error_In; exact Hnth].
  - apply nth_error_None in Hnth. lia.
Qed.

(** C2. With at least one model in the bank, in every world the event
    loop reaches from a new instance: each model identifier passed to
    [paint] is an integer in [[0, N)]; [shuffledModelIds] is a permutation
    of the identifiers [0 .. N-1]; [setup] paints with
    [shuffledModelIds[shuffledModelIds[0]]]; and a [switchModel] by one
    step paints with an element of [shuffledModelIds]. *)
Theorem painted_model_ids_in_range throws names env canvas options calls w0 es :
  names <> [] ->
  constructor throws env canvas options = (calls, Ok w0) ->
  let N := List.length names in
  let w := run throws names w0 es in
  (forall x y radius id, In (Paint x y radius id) (log w) -> valid_id N id) /\
  (forall ids, shuffledModelIds (this w) = Some ids -> Permutation ids (model_ids N)) /\
  (forall random,
      let ids := shuffle random names in
      log (exec (setup throws names random) w) =
      log w ++ [Paint 0 0 (-1) (js_index ids (js_index ids (Num 0)))]) /\
  (forall swipe ids,
      swipe = 1 \/ swipe = -1 ->
      shuffledModelIds (this w) = Some ids ->
      exists m tail,
        In m ids /\
        log (exec (switchModel throws swipe) w) = log w ++ Paint 0 0 (-1) (Num m) :: tail /\
        (tail = [] \/ tail = [Disturb])).
Proof.
  intros Hne Hctor N w.
  destruct (Inv_run throws names env canvas options calls w0 es Hne Hctor)
    as [Hlog Hidx].
  fold N in Hlog, Hidx. fold w in Hlog, Hidx.
  repeat split.
  - intros x y radius id Hin.
    destruct Hlog as (pp & g & rest & Hrest & Hall). rewrite Hrest in Hin.
    destruct Hin as [Hin | [Hin | Hin]]; try discriminate Hin.
    rewrite Forall_forall in Hall. exact (Hall _ Hin).
  - intros ids Hids. unfold index_ok in Hidx. rewrite Hids in Hidx. apply Hidx.
  - intros random. apply setup_effect.
  - intros swipe ids Hs Hids.
    unfold index_ok in Hidx. rewrite Hids in Hidx.
    destruct Hidx as (Hperm & i & Hcur & Hi).
    assert (Hlen : List.length ids = N)
      by (rewrite (Permutation_length Hperm); apply model_ids_length).
    destruct (log_switchModel throws swipe w)
      as [Hsame | (ids' & tail & Hids' & Hlog' & Htail)].
    + exfalso. unfold exec in Hsame.
      rewrite (switchModel_delegates _ _ _ _ Hids) in Hsame.
      destruct (log_setModel throws
                  (js_index ids (next_index ids (curModelIndex (this w)) swipe))
                  (set_this (set_curModelIndex
                     (next_index ids (curModelIndex (this w)) swipe) (this w)) w))
        as (tail & Hlog' & _).
      unfold exec in Hlog'. rewrite Hsame in Hlog'. cbn [log set_this] in Hlog'.
      apply (f_equal (@List.length Call)) in Hlog'.
      rewrite length_app in Hlog'. cbn in Hlog'. lia.
    + rewrite Hids in Hids'. injection Hids' as <-.
      rewrite Hcur in Hlog'.
      rewrite next_index_in_range in Hlog' by (rewrite Hlen; lia).
      destruct (js_index_In ids ((i + swipe) mod Z.of_nat (List.length ids)))
        as (m & Hm & Hin);
        [apply Z.mod_pos_bound; rewrite Hlen; lia |].
      rewrite Hm in Hlog'. exists m, tail. repeat split; assumption.
Qed.

(** ** The grid *)

Lemma gridSize_perform e c :
  Engine.gridSize (fst (Engine.perform e c)) = Engine.gridSize e.
Proof.
  destruct c as [pp | grid g | | | size mode | x y radius [id | |] | x y radius size | |];
    cbn; try reflexivity;
    destruct (Engine.destroyed e); cbn; try reflexivity;
    destruct (Engine.lost e); cbn; try reflexivity.
  - destruct (String.eqb mode "color"); reflexivity.
  - destruct ((0 <=? id) && (id <? Engine.count e)); reflexivity.
Qed.

Lemma gridSize_replay cs : forall e,
  Engine.gridSize (fst (Engine.replay e cs)) = Engine.gridSize e.
Proof.
  induction cs as [| c cs IH]; intros e; cbn [Engine.replay].
  - reflexivity.
  - destruct (Engine.perform e c) as [e1 o] eqn:Hp.
    specialize (IH e1). destruct (Engine.replay e1 cs) as [e2 os].
    cbn [fst] in *. rewrite IH.
    change e1 with (fst (e1, o)). rewrite <- Hp. apply gridSize_perform.
Qed.

Lemma shape_run throws names env canvas options calls w0 es :
  constructor throws env canvas options = (calls, Ok w0) ->
  log_ok (fun _ => True) (log (run throws names w0 es)).
Proof.
  intros Hctor.
  set (P := fun w => log_ok (fun _ => True) (log w)).
  assert (Hframe : forall w w',
             shuffledModelIds (this w') = shuffledModelIds (this w) ->
             curModelIndex (this w') = curModelIndex (this w) ->
             gesture (this w') = gesture (this w) ->
             log w' = log w -> P w -> P w')
    by (unfold P; intros w w' _ _ _ -> H; exact H).
  assert (Hcall : forall w c, benign c = true -> P w -> P (set_log (log w ++ [c]) w)).
  { unfold P. intros w c Hc H. cbn.
    apply log_ok_snoc; [exact H | apply later_ok_benign, Hc]. }
  assert (Hg : forall v, preserves P (assign (set_gesture v)))
    by (intros v w H; exact H).
  apply (pres_run throws names P); try assumption.
  - intros swipe _ w H. unfold P.
    destruct (log_switchModel throws swipe w) as [-> | (ids & tail & _ & -> & Htail)];
      [exact H | apply log_ok_paint; [exact H | exact I | exact Htail]].
  - intros random w H. unfold P.
    destruct (setup_effect throws names random w) as (_ & _ & ->).
    apply log_ok_snoc; [exact H | exact I].
  - intros pos. apply touch_preserves; assumption.
  - destruct (constructor_log _ _ _ _ _ _ Hctor) as (pp & g & Hlog & _).
    exists pp, g, []. split; [exact Hlog | constructor].
Qed.

(** C8. The constructor creates the engine on the grid [[160, 160]], and
    in every world the event loop reaches no other grid is ever given to
    an engine: the log holds that one construction. The engine built by
    the log still has the 160 by 160 field after all the calls, whatever
    canvas sizes the frames set and whatever view sizes [draw] and
    [clearCircle] received. *)
Theorem grid_size_fixed_at_construction throws names env canvas options calls w0 es :
  constructor throws env canvas options = (calls, Ok w0) ->
  let w := run throws names w0 es in
  (forall grid g, In (New grid g) (log w) -> grid = (160, 160)) /\
  List.length (filter (fun c => match c with New _ _ => true | _ => false end) (log w)) = 1%nat /\
  exists e outcomes,
    Engine.boot (Z.of_nat (List.length names)) (log w) = Some (e, outcomes) /\
    Engine.gridSize e = (160, 160).
Proof.
  intros Hctor w.
  destruct (shape_run throws names env canvas options calls w0 es Hctor)
    as (pp & g & rest & Hlog & Hrest).
  fold w in Hlog. rewrite Hlog.
  assert (Hnone : filter (fun c => match c with New _ _ => true | _ => false end) rest = []).
  { clear Hlog. induction Hrest as [| c rest Hc _ IH]; [reflexivity |].
    cbn. destruct c; cbn in Hc; try contradiction; exact IH. }
  repeat split.
  - intros grid g' [Hin | [Hin | Hin]].
    + discriminate Hin.
    + injection Hin as <- _. reflexivity.
    + rewrite Forall_forall in Hrest. destruct (Hrest _ Hin).
  - cbn. rewrite Hnone. reflexivity.
  - cbn [Engine.boot].
    destruct (Engine.replay (Engine.create gridSize0 (Z.of_nat (List.length names))) rest)
      as [e outcomes] eqn:Hreplay.
    exists e, outcomes. split; [reflexivity |].
    change e with (fst (e, outcomes)). rewrite <- Hreplay, gridSize_replay. reflexivity.
Qed.

(** ** Before the ready callback *)

Lemma deliver_no_listeners throws e w : listeners w = [] -> deliver throws e w = w.
Proof. intros H. unfold deliver. rewrite H. reflexivity. Qed.

Lemma Quiet_destroy throws w : Quiet w -> Quiet (exec (destroy throws) w).
Proof.
  intros (Hl & Hi & Ht & Hf & Hops).
  assert (Hlog := log_destroy throws w).
  assert (Hpage : listeners (exec (destroy throws) w) = listeners w /\
                  intervals (exec (destroy throws) w) = intervals w /\
                  timeouts (exec (destroy throws) w) = timeouts w /\
                  frames (exec (destroy throws) w) =
                    match hexellsAnimation w with
                    | Some h => remove Nat.eq_dec h (frames w)
                    | None => frames w
                    end).
  { unfold destroy, exec, bind, page, cancelAnimationFrame, update, call, field; cbn.
    destruct (hexellsAnimation w); cbn;
      (destruct (throws _ _); cbn; [repeat split |]);
      destruct (attached (canvas (this w))); repeat split. }
  destruct Hpage as (E1 & E2 & E3 & E4).
  unfold Quiet. rewrite E1, E2, E3, E4, Hlog, Hf, filter_app, Hops.
  repeat split; try assumption.
  destruct (hexellsAnimation w); reflexivity.
Qed.

Lemma Quiet_dispatch throws names e w :
  is_ready e = false -> Quiet w -> Quiet (dispatch throws names w e).
Proof.
  intros He Hq. pose proof Hq as (Hl & Hi & Ht & Hf & Hops).
  destruct e; try discriminate He; cbn [dispatch];
    try (rewrite deliver_no_listeners by exact Hl; exact Hq).
  - rewrite Hi. exact Hq.
  - rewrite Ht. exact Hq.
  - rewrite Hf. exact Hq.
  - exact Hq.
  - exact Hq.
  - exact Hq.
  - destruct (gui (this w)); exact Hq.
  - destruct (gui (this w)); exact Hq.
  - apply Quiet_destroy, Hq.
Qed.

(** C6. A new instance has no listener, timer or animation frame
    registered, and as long as the ready callback has not fired no event
    makes the class call [step], [draw], [paint], [clearCircle] or
    [disturb]: the handlers that make these calls are registered by
    [setup], which runs as the ready callback. *)
Theorem no_operation_before_ready throws names env canvas options calls w0 es :
  constructor throws env canvas options = (calls, Ok w0) ->
  Forall (fun e => is_ready e = false) es ->
  Quiet w0 /\
  Quiet (run throws names w0 es) /\
  filter is_operation (log (run throws names w0 es)) = [].
Proof.
  intros Hctor Hes.
  assert (H0 : Quiet w0).
  { destruct (constructor_log _ _ _ _ _ _ Hctor)
      as (pp & g & Hlog & _ & _ & Hl & Hi & Ht & Hf).
    unfold Quiet. rewrite Hlog. repeat split; assumption. }
  assert (Hrun : Quiet (run throws names w0 es)).
  { clear Hctor. revert w0 H0.
    induction Hes as [| e es He _ IH]; intros w0 H0; cbn [run fold_left].
    - exact H0.
    - apply IH, Quiet_dispatch; assumption. }
  repeat split; try apply H0; apply Hrun.
Qed.

(** ** Within a gesture *)






(** * The theorems at sample inputs *)

Lemma switchModel_round_trip_witness :
  let w := hidpi_world in
  let forth_back := switch_times returns 5 (-1) (switch_times returns 5 1 w) in
  let back_forth := switch_times returns 5 1 (switch_times returns 5 (-1) w) in
  (curModelIndex (this forth_back) = Num 2 /\
   modelId (this forth_back) = modelId (this w)) /\
  (curModelIndex (this back_forth) = Num 2 /\
   modelId (this back_forth) = modelId (this w)).
Proof.
  apply (switchModel_round_trip returns [2; 0; 1] 2 5 hidpi_world);
    [reflexivity | reflexivity | cbn; lia | reflexivity].
Defined.

Lemma painted_model_ids_in_range_witness :
  constructor returns sample_browser hidpi_canvas Options.empty =
    (log sample_new, Ok sample_new) /\
  forall x y radius id,
    In (Paint x y radius id) (log (run returns sample_names sample_new sample_events)) ->
    valid_id 3 id.
Proof.
  split; [reflexivity |].
  apply (painted_model_ids_in_range returns sample_names sample_browser hidpi_canvas
           Options.empty (log sample_new) sample_new sample_events);
    [discriminate | reflexivity].
Defined.

Lemma render_steps_then_draws_witness :
  let w' := exec (render returns) hidpi_world in
  log w' = log hidpi_world ++ repeat Step 1
             ++ [BindFramebufferInfo; Draw (viewSizeOf (canvas (this w'))) "color"].
Proof.
  apply (render_steps_then_draws returns 1 hidpi_world);
    [intros hist c; reflexivity | reflexivity].
Defined.


Lemma destroyed_engine_rejects_operations_witness :
  let e := Engine.create (160, 160) 3 in
  let e' := fst (Engine.perform e Destroy) in
  Engine.destroyed e = false /\
  Engine.owned e' = [] /\
  Engine.replay e' sample_operations =
    (e', map (fun _ => Some Engine.EngineDestroyedError) sample_operations).
Proof.
  cbv zeta. split; [reflexivity |].
  apply (destroyed_engine_rejects_operations returns hidpi_world
           (Engine.create (160, 160) 3) sample_operations);
    [reflexivity | repeat constructor].
Defined.

Lemma no_operation_before_ready_witness :
  Forall (fun e => is_ready e = false) early_events /\
  filter is_operation (log (run returns sample_names sample_new early_events)) = [].
Proof.
  assert (H : Forall (fun e => is_ready e = false) early_events)
    by (repeat constructor).
  split; [exact H |].
  apply (no_operation_before_ready returns sample_names sample_browser hidpi_canvas
           Options.empty (log sample_new) sample_new early_events);
    [reflexivity | exact H].
Defined.

Lemma setModel_paints_then_disturbs_witness :
  log (exec (setModel returns (Num 1)) hidpi_world) =
    log hidpi_world ++ [Paint 0 0 (-1) (Num 1); Disturb] /\
  modelId (this (exec (setModel returns (Num 1)) hidpi_world)) = Num 1.
Proof.
  destruct (setModel_paints_then_disturbs returns (Num 1) hidpi_world eq_refl)
    as (Hlog & Hid & _).
  split; [exact Hlog | exact Hid].
Defined.

Lemma grid_size_fixed_at_construction_witness :
  constructor returns sample_browser hidpi_canvas Options.empty =
    (log sample_new, Ok sample_new) /\
  exists e outcomes,
    Engine.boot 3 (log (run returns sample_names sample_new sample_events)) =
      Some (e, outcomes) /\
    Engine.gridSize e = (160, 160).
Proof.
  split; [reflexivity |].
  apply (grid_size_fixed_at_construction returns sample_names sample_browser hidpi_canvas
           Options.empty (log sample_new) sample_new sample_events).
  reflexivity.
Defined.

Lemma constructor_checks_powerPreference_witness :
  constructor returns sample_browser hidpi_canvas
      (Options.mk (Some "fast"%string) None None None None None) =
    ([], Throw (JsError "Invalid powerPreference: fast")).
Proof.
  apply (constructor_checks_powerPreference returns sample_browser hidpi_canvas
           (Options.mk (Some "fast"%string) None None None None None) "fast");
    [reflexivity | discriminate | reflexivity].
Defined.


(** * Further properties of the class *)

(** ** What the constructor asks of the browser *)

Lemma includes_In xs s : includes xs s = true -> In s xs.
Proof.
  unfold includes. rewrite existsb_exists. intros (x & Hin & Heq).
  apply String.eqb_eq in Heq. subst. exact Hin.
Qed.

(** X1. Whatever the options and the browser, the constructor requests the
    WebGL context with one of the three power options only, constructs the
    engine only once a context was obtained, on the 160 by 160 grid and
    with the GUI of a responsive instance, and returns an instance only
    after both calls; the instance starts without shuffled list, gesture,
    listener, timer or frame. *)
Theorem constructor_calls throws env canvas options :
  let calls := fst (constructor throws env canvas options) in
  let result := snd (constructor throws env canvas options) in
  (forall p, In (GetContext p) calls -> In p powerOptions) /\
  (forall grid g, In (New grid g) calls ->
     getContext env = true /\ grid = (160, 160) /\
     g = nullish (Options.responsive options) false) /\
  (forall w, result = Ok w ->
     exists p, calls = [GetContext p; New (160, 160) (responsive (this w))] /\
               log w = calls /\
               gui (this w) = responsive (this w) /\
               shuffledModelIds (this w) = None /\
               gesture (this w) = None /\
               listeners w = [] /\ intervals w = O /\ timeouts w = O /\ frames w = []).
Proof.
  cbv zeta. unfold constructor.
  destruct (includes powerOptions _) eqn:Hpp; cbn [negb].
  - apply includes_In in Hpp.
    destruct (getContext env); cbn [negb].
    + destruct (throws _ _); cbn [fst snd].
      * repeat split.
        -- intros p [H | [H | []]]; [injection H as <-; exact Hpp | discriminate H].
        -- destruct H as [H | [H | []]]; [discriminate H | injection H as <- _; reflexivity].
        -- destruct H as [H | [H | []]]; [discriminate H | injection H as _ <-; reflexivity].
        -- intros w H; discriminate H.
      * repeat split.
        -- intros p [H | [H | []]]; [injection H as <-; exact Hpp | discriminate H].
        -- destruct H as [H | [H | []]]; [discriminate H | injection H as <- _; reflexivity].
        -- destruct H as [H | [H | []]]; [discriminate H | injection H as _ <-; reflexivity].
        -- intros w H. injection H as <-. eexists. cbn. repeat split.
    + destruct (WebGLRenderingContext env); cbn [negb fst snd]; repeat split;
        try (intros p [H | []]; injection H as <-; exact Hpp);
        try (destruct H as [H | []]; discriminate H);
        try (intros w H; discriminate H).
  - cbn [fst snd]. repeat split; try contradiction. intros w H; discriminate H.
Qed.

(** ** What the methods leave alone *)

Section Untouched.

Variable throws : list Call -> Call -> bool.
Variable A : Type.
Variable f : World -> A.
Variable v : A.

(** [f] does not look at the log, nor at the fields of the instance that
    the methods assign. *)
Hypothesis f_log : forall calls w, f (set_log calls w) = f w.
Hypothesis f_this : forall h w,
  instance_settings h = instance_settings (this w) -> f (set_this h w) = f w.

Let P : World -> Prop := fun w => f w = v.

Ltac stable_leaf :=
  let w := fresh "w" in
  let H := fresh "H" in
  intros w H; unfold exec, call, assign, update;
  try match goal with |- context [if ?b then _ else _] => destruct b end;
  cbn [fst]; unfold P; rewrite ?f_log, ?f_this by reflexivity; exact H.

Ltac stable :=
  repeat first
    [ apply preserves_bind; [| intros ?]
    | apply preserves_ret
    | apply preserves_throw
    | apply preserves_field
    | apply preserves_page
    | match goal with
      | |- preserves _ (match ?x with _ => _ end) => destruct x
      end
    | stable_leaf ].

Lemma untouched_setModel id : preserves P (setModel throws id).
Proof. unfold setModel. stable. Qed.

Lemma untouched_switchModel swipe : preserves P (switchModel throws swipe).
Proof. unfold switchModel. stable. Qed.

Lemma untouched_startGestue pos : preserves P (startGestue pos).
Proof. unfold startGestue. stable. Qed.

Lemma untouched_touch pos : preserves P (touch throws pos).
Proof. unfold touch. destruct pos. unfold getViewSize. stable. Qed.

Lemma untouched_endGestue : preserves P (endGestue throws).
Proof. unfold endGestue. stable; apply untouched_switchModel. Qed.

Lemma untouched_step_loop fuel : forall i, preserves P (step_loop throws fuel i).
Proof.
  induction fuel as [| fuel IH]; intros i; cbn [step_loop]; stable; apply IH.
Qed.

Lemma untouched_handler on e m :
  handler throws on e = Some m -> preserves P m.
Proof.
  destruct on, e; cbn; intros H; try discriminate H; injection H as <-;
    unfold onMouseDown, onMouseMove, onTouchStart, onKeyPress, touchEvent;
    try (apply preserves_forEach; intros t);
    repeat first
      [ apply untouched_touch | apply untouched_endGestue
      | apply untouched_startGestue | apply untouched_switchModel
      | apply preserves_bind; [| intros ?]
      | apply preserves_ret
      | match goal with
        | |- preserves _ (match ?x with _ => _ end) => destruct x
        end
      | stable_leaf ].
Qed.

Lemma untouched_deliver e w : P w -> P (deliver throws e w).
Proof.
  unfold deliver. generalize (listeners w). intros ls. revert w.
  induction ls as [| on ls IH]; intros w Hw; cbn [fold_left].
  - exact Hw.
  - apply IH. destruct (handler throws on e) as [m |] eqn:Hm; [| exact Hw].
    eapply untouched_handler; eassumption.
Qed.

(** *** Methods that also schedule *)

(** [f] does not look at the frames, the timeouts or the clock either. *)
Hypothesis f_page : forall w w',
  this w' = this w -> log w' = log w ->
  listeners w' = listeners w -> intervals w' = intervals w ->
  f w' = f w.

Lemma untouched_render : preserves P (render throws).
Proof.
  unfold render, getViewSize, setTimeout. stable.
  - apply untouched_step_loop.
  - intros w H. unfold P. rewrite <- H. apply f_page; reflexivity.
Qed.

Lemma untouched_destroy : preserves P (destroy throws).
Proof.
  unfold destroy, cancelAnimationFrame. stable;
    intros w H; unfold P; rewrite <- H; apply f_page;
    try reflexivity; destruct a; reflexivity.
Qed.

Lemma untouched_request : preserves P requestAnimationFrame.
Proof. intros w H. unfold P. rewrite <- H. apply f_page; reflexivity. Qed.

End Untouched.

(** ** What the methods ask of the engine *)

Section LogInvariant.

Variable throws : list Call -> Call -> bool.
Variable model_names : list string.
Variable ok : Call -> Prop.

Let P : World -> Prop := fun w => Forall ok (log w).

Hypothesis ok_step : ok Step.
Hypothesis ok_bind : ok BindFramebufferInfo.
Hypothesis ok_draw : forall viewSize, ok (Draw viewSize "color").
Hypothesis ok_paint : forall id, ok (Paint 0 0 (-1) id).
Hypothesis ok_disturb : ok Disturb.
Hypothesis ok_destroy : ok Destroy.

Lemma logged_call c : ok c -> preserves P (call throws c).
Proof.
  intros Hc w Hw. unfold exec, call.
  destruct (throws (log w) c); cbn [fst]; unfold P; cbn [log set_log];
    (apply Forall_app; split; [exact Hw | constructor; [exact Hc | constructor]]).
Qed.

Ltac logs :=
  repeat first
    [ apply preserves_bind; [| intros ?]
    | apply preserves_ret
    | apply preserves_throw
    | apply preserves_field
    | apply preserves_page
    | match goal with
      | |- preserves _ (match ?x with _ => _ end) => destruct x
      end
    | apply logged_call; solve [auto]
    | let w := fresh "w" in
      let H := fresh "H" in
      intros w H; exact H ].

Lemma logged_switchModel swipe : preserves P (switchModel throws swipe).
Proof. unfold switchModel, setModel. logs. Qed.

Lemma logged_step_loop fuel : forall i, preserves P (step_loop throws fuel i).
Proof.
  induction fuel as [| fuel IH]; intros i; cbn [step_loop]; logs; apply IH.
Qed.

Lemma logged_render : preserves P (render throws).
Proof.
  unfold render, getViewSize, setTimeout. logs. apply logged_step_loop.
Qed.

Lemma logged_setup random : preserves P (setup throws model_names random).
Proof. unfold setup. logs. Qed.

Lemma logged_destroy : preserves P (destroy throws).
Proof.
  unfold destroy, cancelAnimationFrame. logs.
  intros w H. unfold exec, update. destruct a; exact H.
Qed.

(** The callbacks of timers and frames, and the changes of the
    surroundings. *)
Lemma logged_dispatch_other e w :
  is_dom e = false -> P w -> P (dispatch throws model_names w e).
Proof.
  intros He Hw. destruct e; try discriminate He; cbn [dispatch].
  - apply logged_setup, Hw.
  - destruct (intervals w); [exact Hw | apply logged_switchModel, Hw].
  - destruct (timeouts w); exact Hw.
  - destruct (frames w); [exact Hw | apply logged_render; exact Hw].
  - exact Hw.
  - exact Hw.
  - exact Hw.
  - destruct (gui (this w)); exact Hw.
  - destruct (gui (this w)); exact Hw.
  - apply logged_destroy, Hw.
Qed.

Hypothesis ok_clear : forall x y radius viewSize, ok (ClearCircle x y radius viewSize).

Lemma logged_touch pos : preserves P (touch throws pos).
Proof. unfold touch. destruct pos. unfold getViewSize. logs. Qed.

Lemma logged_endGestue : preserves P (endGestue throws).
Proof. unfold endGestue. logs; apply logged_switchModel. Qed.

Lemma logged_handler on e m :
  handler throws on e = Some m -> preserves P m.
Proof.
  destruct on, e; cbn; intros H; try discriminate H; injection H as <-;
    unfold onMouseDown, onMouseMove, onTouchStart, onKeyPress, touchEvent, startGestue;
    try (apply preserves_forEach; intros t);
    repeat first
      [ apply logged_touch | apply logged_endGestue | apply logged_switchModel
      | apply preserves_bind; [| intros ?]
      | apply preserves_ret
      | apply preserves_page
      | match goal with
        | |- preserves _ (match ?x with _ => _ end) => destruct x
        end
      | let w := fresh "w" in
        let H := fresh "H" in
        intros w H; exact H ].
Qed.

Lemma logged_dispatch e w : P w -> P (dispatch throws model_names w e).
Proof.
  intros Hw. destruct (is_dom e) eqn:He; [| apply logged_dispatch_other; assumption].
  assert (Hd : P (deliver throws e w)).
  { unfold deliver. generalize (listeners w). intros ls. revert w Hw.
    induction ls as [| on ls IH]; intros w Hw; cbn [fold_left].
    - exact Hw.
    - apply IH. destruct (handler throws on e) as [m |] eqn:Hm; [| exact Hw].
      eapply logged_handler; eassumption. }
  destruct e; try discriminate He; exact Hd.
Qed.

Lemma logged_run es : forall w, P w -> P (run throws model_names w es).
Proof.
  induction es as [| e es IH]; intros w Hw; cbn [run fold_left].
  - exact Hw.
  - apply IH, logged_dispatch, Hw.
Qed.

End LogInvariant.

(** X2. In every world the event loop reaches from a new instance, each
    frame was drawn in mode ["color"] and each paint was a paint of the
    whole field, [paint(0, 0, -1, id)]: the class never draws in another
    mode and never paints a region. *)
Theorem calls_have_fixed_shape throws names env canvas options es w0 :
  snd (constructor throws env canvas options) = Ok w0 ->
  Forall call_shape (log (run throws names w0 es)).
Proof.
  intros Hctor.
  apply logged_run; cbn; auto.
  destruct (constructor throws env canvas options) as [calls result] eqn:Hc.
  cbn in Hctor. subst result.
  destruct (constructor_log _ _ _ _ _ _ Hc) as (pp & g & Hlog & _).
  rewrite Hlog. repeat constructor.
Qed.

Lemma calls_have_fixed_shape_witness :
  snd (constructor returns sample_browser hidpi_canvas Options.empty) = Ok sample_new /\
  Forall call_shape (log (run returns sample_names sample_new sample_events)).
Proof.
  split; [reflexivity |].
  apply (calls_have_fixed_shape returns sample_names sample_browser hidpi_canvas
           Options.empty sample_events sample_new).
  reflexivity.
Defined.

(** ** Settings and registrations *)

Lemma setup_page throws names random w :
  let ids := shuffle random names in
  let w' := exec (setup throws names random) w in
  let threw := throws (log w) (Paint 0 0 (-1) (js_index ids (js_index ids (Num 0)))) in
  settings w' = settings w /\
  registered w' =
    (if threw then registered w
     else if responsive (this w) then (listeners w ++ responsive_listeners, intervals w)
          else (listeners w, S (intervals w))) /\
  frames w' = (if threw then frames w else frames w ++ [nextHandle w]) /\
  timeouts w' = timeouts w.
Proof.
  cbv zeta. unfold setup, exec, bind, assign, field, call; cbn.
  destruct (throws _ _); cbn; [repeat split |].
  destruct (responsive (this w)); cbn; repeat split.
Qed.

Lemma settings_log calls w : settings (set_log calls w) = settings w.
Proof. reflexivity. Qed.

Lemma settings_this h w :
  instance_settings h = instance_settings (this w) -> settings (set_this h w) = settings w.
Proof. intros H. exact H. Qed.

Lemma registered_log calls w : registered (set_log calls w) = registered w.
Proof. reflexivity. Qed.

Lemma registered_this h w :
  instance_settings h = instance_settings (this w) -> registered (set_this h w) = registered w.
Proof. reflexivity. Qed.

Lemma settings_dispatch throws names w e :
  is_gui e = false \/ gui (this w) = false ->
  settings (dispatch throws names w e) = settings w.
Proof.
  intros Hgui.
  assert (Hpage : forall w1 w2 : World, this w2 = this w1 -> log w2 = log w1 ->
            listeners w2 = listeners w1 -> intervals w2 = intervals w1 ->
            settings w2 = settings w1)
    by (intros w1 w2 H _ _ _; unfold settings; rewrite H; reflexivity).
  destruct e; cbn [dispatch];
    try (apply (untouched_deliver throws _ settings (settings w) settings_log settings_this);
         reflexivity).
  - apply setup_page.
  - destruct (intervals w); [reflexivity |].
    apply (untouched_switchModel throws _ settings (settings w) settings_log settings_this).
    reflexivity.
  - destruct (timeouts w); reflexivity.
  - destruct (frames w); [reflexivity |].
    apply (untouched_render throws _ settings (settings w) settings_log settings_this Hpage).
    reflexivity.
  - reflexivity.
  - reflexivity.
  - reflexivity.
  - destruct Hgui as [H | H]; [discriminate H | rewrite H; reflexivity].
  - destruct Hgui as [H | H]; [discriminate H | rewrite H; reflexivity].
  - apply (untouched_destroy throws _ settings (settings w) settings_log settings_this Hpage).
    reflexivity.
Qed.

Lemma registered_dispatch throws names w e :
  is_ready e = false ->
  registered (dispatch throws names w e) = registered w.
Proof.
  intros He.
  assert (Hpage : forall w1 w2 : World, this w2 = this w1 -> log w2 = log w1 ->
            listeners w2 = listeners w1 -> intervals w2 = intervals w1 ->
            registered w2 = registered w1)
    by (intros w1 w2 _ _ H1 H2; unfold registered; rewrite H1, H2; reflexivity).
  destruct e; try discriminate He; cbn [dispatch];
    try (apply (untouched_deliver throws _ registered (registered w)
                  registered_log registered_this);
         reflexivity).
  - destruct (intervals w) eqn:Hi; [reflexivity |].
    apply (untouched_switchModel throws _ registered (registered w)
             registered_log registered_this).
    reflexivity.
  - destruct (timeouts w); reflexivity.
  - destruct (frames w); [reflexivity |].
    apply (untouched_render throws _ registered (registered w)
             registered_log registered_this Hpage).
    reflexivity.
  - reflexivity.
  - reflexivity.
  - reflexivity.
  - destruct (gui (this w)); reflexivity.
  - destruct (gui (this w)); reflexivity.
  - apply (untouched_destroy throws _ registered (registered w)
             registered_log registered_this Hpage).
    reflexivity.
Qed.

Lemma gui_dispatch throws names w e :
  (timePerModel (this (dispatch throws names w e)),
   responsive (this (dispatch throws names w e)),
   fps (this (dispatch throws names w e)),
   gui (this (dispatch throws names w e))) =
  (timePerModel (this w), responsive (this w), fps (this w), gui (this w)).
Proof.
  destruct (is_gui e) eqn:He.
  - destruct e; try discriminate He; cbn [dispatch];
      destruct (gui (this w)) eqn:Hg; cbn; rewrite ?Hg; reflexivity.
  - assert (H := settings_dispatch throws names w e (or_introl He)).
    unfold settings, instance_settings in H. injection H as _ _ H1 H2 H3 H4.
    rewrite H1, H2, H3, H4. reflexivity.
Qed.

(** X3. Over any run of events [timePerModel], [responsive], [fps] and the
    presence of the GUI stay as the constructor set them; [brushRadius] and
    [stepPerFrame] change through the GUI sliders only, so never on an
    instance without GUI and never over events that are not slider
    moves. *)
Theorem settings_are_fixed throws names es w :
  let w' := run throws names w es in
  (timePerModel (this w'), responsive (this w'), fps (this w'), gui (this w')) =
  (timePerModel (this w), responsive (this w), fps (this w), gui (this w)) /\
  (gui (this w) = false -> settings w' = settings w) /\
  (Forall (fun e => is_gui e = false) es -> settings w' = settings w).
Proof.
  cbv zeta. revert w. induction es as [| e es IH]; intros w; cbn [run fold_left].
  - repeat split.
  - destruct (IH (dispatch throws names w e)) as (H1 & H2 & H3).
    fold (run throws names (dispatch throws names w e) es) in *.
    assert (Hg := gui_dispatch throws names w e).
    repeat split.
    + rewrite H1. exact Hg.
    + intros Hgui. rewrite H2.
      * apply settings_dispatch. right. exact Hgui.
      * injection Hg as _ _ _ Hg. rewrite Hg. exact Hgui.
    + intros Hes. inversion Hes as [| ? ? He Hrest]; subst.
      rewrite (H3 Hrest). apply settings_dispatch. left. exact He.
Qed.

(** ** Responsive and unresponsive instances *)

Lemma constructor_ok throws env canvas options w0 :
  snd (constructor throws env canvas options) = Ok w0 ->
  exists pp,
    log w0 = [GetContext pp; New gridSize0 (responsive (this w0))] /\
    responsive (this w0) = nullish (Options.responsive options) false /\
    gui (this w0) = responsive (this w0) /\
    shuffledModelIds (this w0) = None /\
    listeners w0 = [] /\ intervals w0 = O /\ timeouts w0 = O /\ frames w0 = [].
Proof.
  unfold constructor.
  destruct (negb (includes _ _)); [discriminate |].
  destruct (negb (getContext env)).
  - destruct (negb (WebGLRenderingContext env)); discriminate.
  - destruct (throws _ _); [discriminate |].
    cbn [snd]. intros H. injection H as <-. cbn.
    eexists. repeat split.
Qed.

Lemma responsive_dispatch throws names w e :
  responsive (this (dispatch throws names w e)) = responsive (this w).
Proof.
  assert (H := gui_dispatch throws names w e). injection H as _ H _ _. exact H.
Qed.

Lemma Deaf_dispatch throws names w e :
  Deaf w -> Deaf (dispatch throws names w e).
Proof.
  intros (Hresp & Hl & Hlog).
  destruct (is_dom e) eqn:Hdom.
  - assert (E : dispatch throws names w e = w)
      by (destruct e; try discriminate Hdom; cbn [dispatch];
          apply deliver_no_listeners, Hl).
    rewrite E. repeat split; assumption.
  - repeat split.
    + rewrite responsive_dispatch. exact Hresp.
    + destruct (is_ready e) eqn:Hready.
      * destruct e; try discriminate Hready. cbn [dispatch].
        destruct (setup_page throws names random w) as (_ & Hreg & _).
        rewrite Hresp in Hreg. unfold registered in Hreg.
        destruct (throws _ _); injection Hreg as -> _; exact Hl.
      * assert (Hreg := registered_dispatch throws names w e Hready).
        unfold registered in Hreg. injection Hreg as -> _. exact Hl.
    + apply (logged_dispatch_other throws names (fun c => is_clearCircle c = false));
        try reflexivity; assumption.
Qed.

(** X4. An instance built without the [responsive] option never registers
    a listener: over any run of events, pointer, touch and key events
    change nothing, and no [clearCircle] call is ever issued. *)
Theorem unresponsive_instance_is_deaf throws names env canvas options w0 es :
  snd (constructor throws env canvas options) = Ok w0 ->
  nullish (Options.responsive options) false = false ->
  let w := run throws names w0 es in
  listeners w = [] /\
  Forall (fun c => is_clearCircle c = false) (log w) /\
  (forall e, is_dom e = true -> dispatch throws names w e = w).
Proof.
  intros Hctor Hopt w.
  assert (Hdeaf : Deaf w).
  { subst w.
    destruct (constructor_ok _ _ _ _ _ Hctor) as (pp & Hlog & Hresp & _ & _ & Hl & _).
    assert (H0 : Deaf w0).
    { repeat split; [congruence | exact Hl |]. rewrite Hlog. repeat constructor. }
    clear - H0. revert w0 H0.
    induction es as [| e es IH]; intros w0 H0; cbn [run fold_left];
      [exact H0 | apply IH, Deaf_dispatch, H0]. }
  destruct Hdeaf as (_ & Hl & Hlog). repeat split; try assumption.
  intros e He. destruct e; try discriminate He; cbn [dispatch];
    apply deliver_no_listeners, Hl.
Qed.

Lemma unresponsive_instance_is_deaf_witness :
  snd (constructor returns sample_browser hidpi_canvas Options.empty) = Ok sample_new /\
  listeners (run returns sample_names sample_new sample_events) = [] /\
  Forall (fun c => is_clearCircle c = false)
         (log (run returns sample_names sample_new sample_events)).
Proof.
  split; [reflexivity |].
  destruct (unresponsive_instance_is_deaf returns sample_names sample_browser hidpi_canvas
              Options.empty sample_new sample_events eq_refl eq_refl) as (H1 & H2 & _).
  split; assumption.
Defined.

Lemma intervals_dispatch_responsive throws names w e :
  responsive (this w) = true ->
  intervals (dispatch throws names w e) = intervals w.
Proof.
  intros Hresp. destruct (is_ready e) eqn:Hready.
  - destruct e; try discriminate Hready. cbn [dispatch].
    destruct (setup_page throws names random w) as (_ & Hreg & _).
    rewrite Hresp in Hreg. unfold registered in Hreg.
    destruct (throws _ _); injection Hreg as _ ->; reflexivity.
  - assert (Hreg := registered_dispatch throws names w e Hready).
    unfold registered in Hreg. injection Hreg as _ ->. reflexivity.
Qed.

(** X5. An instance built with [responsive: true] never starts the
    interval timer: over any run of events no timer is registered, so the
    model changes through key presses and swipes only. *)
Theorem responsive_instance_has_no_timer throws names env canvas options w0 es :
  snd (constructor throws env canvas options) = Ok w0 ->
  Options.responsive options = Some true ->
  let w := run throws names w0 es in
  intervals w = O /\ dispatch throws names w IntervalTick = w.
Proof.
  intros Hctor Hopt w.
  assert (H : responsive (this w) = true /\ intervals w = O).
  { subst w.
    destruct (constructor_ok _ _ _ _ _ Hctor) as (pp & _ & Hresp & _ & _ & _ & Hi & _).
    rewrite Hopt in Hresp. cbn in Hresp.
    clear Hctor. revert w0 Hresp Hi.
    induction es as [| e es IH]; intros w0 Hresp Hi; cbn [run fold_left].
    - split; assumption.
    - apply IH.
      + rewrite responsive_dispatch. exact Hresp.
      + rewrite intervals_dispatch_responsive by exact Hresp. exact Hi. }
  destruct H as [_ Hi]. split; [exact Hi |].
  cbn [dispatch]. rewrite Hi. reflexivity.
Qed.

Lemma responsive_instance_has_no_timer_witness :
  snd (constructor returns sample_browser hidpi_canvas responsive_options) =
    Ok responsive_new /\
  intervals (run returns sample_names responsive_new sample_events) = O.
Proof.
  split; [reflexivity |].
  apply (responsive_instance_has_no_timer returns sample_names sample_browser hidpi_canvas
           responsive_options responsive_new sample_events); reflexivity.
Defined.

(** ** The first operation *)

Lemma log_grows throws names es w :
  exists cs, log (run throws names w es) = log w ++ cs.
Proof.
  set (P := fun w' : World => exists cs, log w' = log w ++ cs).
  assert (Hcall : forall w1 c, benign c = true -> P w1 -> P (set_log (log w1 ++ [c]) w1)).
  { intros w1 c _ (cs & Hcs). exists (cs ++ [c]). cbn. rewrite Hcs, app_assoc. reflexivity. }
  assert (Hg : forall v, preserves P (assign (set_gesture v)))
    by (intros v w1 H; exact H).
  apply (pres_run throws names P); try assumption.
  - intros w1 w2 _ _ _ Hlog (cs & Hcs). exists cs. rewrite Hlog. exact Hcs.
  - intros swipe _ w1 (cs & Hcs).
    destruct (log_switchModel throws swipe w1) as [Hsame | (ids & tail & _ & Hlog & _)].
    + exists cs. rewrite Hsame. exact Hcs.
    + eexists. rewrite Hlog, Hcs, <- app_assoc. reflexivity.
  - intros random w1 (cs & Hcs).
    destruct (setup_effect throws names random w1) as (_ & _ & Hlog).
    eexists. rewrite Hlog, Hcs, <- app_assoc. reflexivity.
  - intros pos. apply touch_preserves; assumption.
  - exists []. rewrite app_nil_r. reflexivity.
Qed.

Lemma Quiet_first_operation throws names es : forall w,
  Quiet w ->
  operations (log (run throws names w es)) = [] \/
  exists id rest,
    operations (log (run throws names w es)) = Paint 0 0 (-1) id :: rest.
Proof.
  induction es as [| e es IH]; intros w Hq; cbn [run fold_left].
  - left. apply Hq.
  - destruct (is_ready e) eqn:He.
    + right. destruct e; try discriminate He. cbn [dispatch].
      destruct (setup_effect throws names random w) as (_ & _ & Hlog).
      destruct (log_grows throws names es (exec (setup throws names random) w))
        as (cs & Hcs).
      fold (run throws names (exec (setup throws names random) w) es).
      rewrite Hcs, Hlog. unfold operations. rewrite !filter_app.
      destruct Hq as (_ & _ & _ & _ & Hops). rewrite Hops. cbn.
      eexists. eexists. reflexivity.
    + apply IH, Quiet_dispatch; assumption.
Qed.

(** X6. The first engine operation a new instance ever issues is the paint
    of the whole field that [setup] makes: in every log the event loop
    reaches, no [step], [draw], [clearCircle] or [disturb] precedes it. *)
Theorem first_operation_is_the_paint_of_setup throws names env canvas options w0 es :
  snd (constructor throws env canvas options) = Ok w0 ->
  operations (log (run throws names w0 es)) = [] \/
  exists id rest,
    operations (log (run throws names w0 es)) = Paint 0 0 (-1) id :: rest.
Proof.
  intros Hctor. apply Quiet_first_operation.
  destruct (constructor_ok _ _ _ _ _ Hctor) as (pp & Hlog & _ & _ & _ & Hl & Hi & Ht & Hf).
  unfold Quiet. rewrite Hlog. repeat split; assumption.
Qed.

Lemma first_operation_is_the_paint_of_setup_witness :
  snd (constructor returns sample_browser hidpi_canvas Options.empty) = Ok sample_new /\
  exists rest,
    operations (log (run returns sample_names sample_new sample_events)) =
      Paint 0 0 (-1) (Num 2) :: rest.
Proof.
  split; [reflexivity |].
  destruct (first_operation_is_the_paint_of_setup returns sample_names sample_browser
              hidpi_canvas Options.empty sample_new sample_events eq_refl)
    as [H | (id & rest & H)].
  - discriminate H.
  - exists rest. rewrite H. vm_compute in H. injection H as <- _. reflexivity.
Defined.

(** ** The animation loop *)

Lemma bind_outcome {A B} (m : M A) (k : A -> M B)
      (I : World -> Prop) (Q : World -> Result B -> Prop) :
  preserves I m ->
  (forall w e, I w -> Q w (Throw e)) ->
  (forall a w, I w -> Q (fst (k a w)) (snd (k a w))) ->
  forall w, I w -> Q (fst (bind m k w)) (snd (bind m k w)).
Proof.
  intros Hm Hthrow Hk w Hw. unfold bind.
  assert (Hw' := Hm w Hw). unfold exec in Hw'.
  destruct (m w) as [w' [a | e]]; cbn [fst snd] in *; [apply Hk | apply Hthrow]; exact Hw'.
Qed.

Lemma schedule_log calls w :
  (frames (set_log calls w), timeouts (set_log calls w)) = (frames w, timeouts w).
Proof. reflexivity. Qed.

Lemma schedule_this h w :
  instance_settings h = instance_settings (this w) ->
  (frames (set_this h w), timeouts (set_this h w)) = (frames w, timeouts w).
Proof. reflexivity. Qed.

Lemma render_outcome throws w :
  frames (exec (render throws) w) = frames w /\
  timeouts (exec (render throws) w) =
    (if is_ok (snd (render throws w)) then S (timeouts w) else timeouts w).
Proof.
  set (I := fun w' : World => (frames w', timeouts w') = (frames w, timeouts w)).
  set (Q := fun (w' : World) (r : Result unit) =>
              frames w' = frames w /\
              timeouts w' = (if is_ok r then S (timeouts w) else timeouts w)).
  assert (Hthrow : forall w' e, I w' -> Q w' (Throw e)).
  { intros w' e H. unfold I in H. injection H as H1 H2. split; assumption. }
  assert (Hleaf : forall c, preserves I (call throws c)).
  { intros c w' H. unfold exec, call. destruct (throws _ _); exact H. }
  assert (Hassign : forall f, preserves I (assign f)) by (intros f w' H; exact H).
  change (Q (fst (render throws w)) (snd (render throws w))).
  unfold render, getViewSize.
  apply bind_outcome with (I := I); [apply preserves_field | exact Hthrow | | reflexivity].
  intros n w1. apply bind_outcome with (I := I); [| exact Hthrow |].
  { apply (untouched_step_loop throws _ (fun w' => (frames w', timeouts w'))).
    apply schedule_log. }
  intros _ w2. apply bind_outcome with (I := I); [apply preserves_page | exact Hthrow |].
  intros dpr w3. apply bind_outcome with (I := I); [apply preserves_field | exact Hthrow |].
  intros [cw ch] w4.
  apply bind_outcome with (I := I); [apply Hassign | exact Hthrow |].
  intros _ w5. apply bind_outcome with (I := I); [apply Hassign | exact Hthrow |].
  intros _ w6. apply bind_outcome with (I := I); [apply Hleaf | exact Hthrow |].
  intros _ w7. apply bind_outcome with (I := I); [apply preserves_field | exact Hthrow |].
  intros size w8. apply bind_outcome with (I := I); [apply Hleaf | exact Hthrow |].
  intros _ w9 H. unfold I in H. injection H as H1 H2.
  unfold setTimeout, update, Q; cbn. split; [exact H1 | rewrite H2; reflexivity].
Qed.

(** X7. A frame keeps the animation going exactly when it completes:
    [render] schedules the timeout for the next frame if it returns, and
    schedules nothing if a call to the engine throws; it never requests or
    cancels a frame itself. *)
Theorem render_reschedules_when_it_returns throws w :
  frames (exec (render throws) w) = frames w /\
  (is_ok (snd (render throws w)) = true ->
   timeouts (exec (render throws) w) = S (timeouts w)) /\
  (is_ok (snd (render throws w)) = false ->
   timeouts (exec (render throws) w) = timeouts w) /\
  ((forall hist c, throws hist c = false) -> is_ok (snd (render throws w)) = true).
Proof.
  destruct (render_outcome throws w) as (Hf & Ht).
  repeat split.
  - exact Hf.
  - intros H. rewrite Ht, H. reflexivity.
  - intros H. rewrite Ht, H. reflexivity.
  - intros Hret.
    destruct (is_ok (snd (render throws w))); [reflexivity |].
    exfalso. revert Ht. rewrite (render_returns _ _ Hret). cbn. lia.
Qed.

Lemma destroy_page throws w :
  let w' := exec (destroy throws) w in
  listeners w' = listeners w /\
  intervals w' = intervals w /\
  timeouts w' = timeouts w /\
  hexellsAnimation w' = None /\
  frames w' = match hexellsAnimation w with
              | Some h => remove Nat.eq_dec h (frames w)
              | None => frames w
              end /\
  shuffledModelIds (this w') = shuffledModelIds (this w).
Proof.
  cbv zeta.
  unfold destroy, exec, bind, page, cancelAnimationFrame, update, call, field; cbn.
  destruct (hexellsAnimation w); cbn;
    (destruct (throws _ _); cbn; [repeat split |]);
    destruct (attached (canvas (this w))); repeat split.
Qed.

Lemma pending_log calls w : pending (set_log calls w) = pending w.
Proof. reflexivity. Qed.

Lemma pending_this h w :
  instance_settings h = instance_settings (this w) -> pending (set_this h w) = pending w.
Proof. reflexivity. Qed.

Lemma pending_dispatch throws names w e :
  (pending (dispatch throws names w e) <= pending w + (if is_ready e then 1 else 0))%nat.
Proof.
  destruct e; cbn [dispatch is_ready];
    try (rewrite (untouched_deliver throws _ pending (pending w) pending_log pending_this)
           by reflexivity; lia).
  - destruct (setup_page throws names random w) as (_ & _ & Hf & Ht).
    unfold pending. rewrite Hf, Ht.
    destruct (throws _ _); rewrite ?length_app; cbn; lia.
  - destruct (intervals w); [lia |].
    rewrite (untouched_switchModel throws _ pending (pending w) pending_log pending_this)
      by reflexivity.
    lia.
  - destruct (timeouts w) as [| n] eqn:Ht; [lia |].
    unfold pending, exec, bind, requestAnimationFrame, update; cbn.
    rewrite length_app, Ht. cbn. lia.
  - destruct (frames w) as [| h rest] eqn:Hf; [lia |].
    destruct (render_outcome throws (set_frames rest w)) as (Hf' & Ht').
    unfold pending. rewrite Hf', Ht', Hf. cbn.
    destruct (is_ok _); lia.
  - change (pending w <= pending w + 0)%nat. lia.
  - change (pending w <= pending w + 0)%nat. lia.
  - change (pending w <= pending w + 0)%nat. lia.
  - destruct (gui (this w)); change (pending w <= pending w + 0)%nat; lia.
  - destruct (gui (this w)); change (pending w <= pending w + 0)%nat; lia.
  - destruct (destroy_page throws w) as (_ & _ & Ht & _ & Hf & _).
    unfold pending. rewrite Hf, Ht.
    destruct (hexellsAnimation w) as [h |]; [| lia].
    assert (H := remove_length_le Nat.eq_dec (frames w) h). lia.
Qed.

(** X8. The animation loop never multiplies: in every world the event loop
    reaches from a new instance, the animation frames requested and the
    timeouts pending together number at most the times the ready callback
    has fired, so at most one after a single [setup]. *)
Theorem animation_loop_does_not_multiply throws names env canvas options w0 es :
  snd (constructor throws env canvas options) = Ok w0 ->
  (pending (run throws names w0 es) <= ready_count es)%nat.
Proof.
  intros Hctor.
  assert (H0 : pending w0 = O).
  { destruct (constructor_ok _ _ _ _ _ Hctor) as (pp & _ & _ & _ & _ & _ & _ & Ht & Hf).
    unfold pending. rewrite Hf, Ht. reflexivity. }
  assert (Hrun : forall es w,
             (pending (run throws names w es) <= pending w + ready_count es)%nat).
  { clear. induction es as [| e es IH]; intros w; cbn [run fold_left].
    - unfold ready_count. cbn. lia.
    - fold (run throws names (dispatch throws names w e) es).
      specialize (IH (dispatch throws names w e)).
      assert (Hd := pending_dispatch throws names w e).
      unfold ready_count in *. cbn [filter].
      destruct (is_ready e); cbn [List.length]; lia. }
  specialize (Hrun es w0). lia.
Qed.

Lemma animation_loop_does_not_multiply_witness :
  snd (constructor returns sample_browser hidpi_canvas Options.empty) = Ok sample_new /\
  (pending (run returns sample_names sample_new sample_events) <= 1)%nat.
Proof.
  split; [reflexivity |].
  apply (animation_loop_does_not_multiply returns sample_names sample_browser hidpi_canvas
           Options.empty sample_new sample_events).
  reflexivity.
Defined.

(** ** [destroy] *)

(** X9. [destroy()] calls [destroy] on the engine and cancels the animation
    frame last requested, and that is all it stops: the listeners, the
    interval timer and a pending timeout stay. On an instance whose timer
    runs, the next tick after [destroy()] still switches the model and
    calls [paint] on the destroyed engine. *)
Theorem destroy_leaves_the_timers throws names w ids n :
  shuffledModelIds (this w) = Some ids ->
  intervals w = S n ->
  let w' := exec (destroy throws) w in
  listeners w' = listeners w /\ intervals w' = intervals w /\ timeouts w' = timeouts w /\
  hexellsAnimation w' = None /\
  (forall h, hexellsAnimation w = Some h -> ~ In h (frames w')) /\
  exists id tail,
    log (dispatch throws names w' IntervalTick) =
      log w ++ Destroy :: Paint 0 0 (-1) id :: tail.
Proof.
  intros Hids Hn w'.
  destruct (destroy_page throws w) as (Hl & Hi & Ht & Ha & Hf & Hs).
  fold w' in Hl, Hi, Ht, Ha, Hf, Hs.
  repeat split; try assumption.
  - intros h Hh. rewrite Hf, Hh. apply remove_In.
  - cbn [dispatch]. rewrite Hi, Hn.
    assert (Hids' : shuffledModelIds (this w') = Some ids) by (rewrite Hs; exact Hids).
    destruct (log_switchModel throws 1 w') as [Hsame | (ids' & tail & _ & Hlog & _)].
    + exfalso. unfold exec in Hsame.
      rewrite (switchModel_delegates _ _ _ _ Hids') in Hsame.
      destruct (log_setModel throws
                  (js_index ids (next_index ids (curModelIndex (this w')) 1))
                  (set_this (set_curModelIndex
                     (next_index ids (curModelIndex (this w')) 1) (this w')) w'))
        as (tail & Hlog & _).
      unfold exec in Hlog. rewrite Hsame in Hlog. cbn [log set_this] in Hlog.
      apply (f_equal (@List.length Call)) in Hlog.
      rewrite length_app in Hlog. cbn in Hlog. lia.
    + eexists. exists tail. rewrite Hlog. subst w'. rewrite log_destroy.
      rewrite <- app_assoc. reflexivity.
Qed.

Lemma destroy_leaves_the_timers_witness :
  let w' := exec (destroy returns) hidpi_world in
  intervals w' = 1%nat /\
  log (dispatch returns sample_names w' IntervalTick) =
    log hidpi_world ++ [Destroy; Paint 0 0 (-1) (Num 2); Disturb].
Proof.
  cbv zeta.
  destruct (destroy_leaves_the_timers returns sample_names hidpi_world [2; 0; 1] 0
              eq_refl eq_refl) as (_ & Hi & _).
  split; [exact Hi | reflexivity].
Defined.

(** X10. [destroy()] needs the canvas to be in the document. With the
    canvas attached it destroys the engine, removes the canvas and
    returns; with a canvas that has no parent, as after a first
    [destroy()], it still calls [destroy] on the engine and then throws a
    [TypeError]. *)
Theorem destroy_twice_throws throws w :
  throws (log w) Destroy = false ->
  let w1 := exec (destroy throws) w in
  log w1 = log w ++ [Destroy] /\
  (attached (canvas (this w)) = true ->
   snd (destroy throws w) = Ok tt /\
   attached (canvas (this w1)) = false /\
   log (exec (destroy throws) w1) = log w ++ [Destroy; Destroy] /\
   (throws (log w ++ [Destroy]) Destroy = false ->
    snd (destroy throws w1) =
      Throw (TypeError "Cannot read properties of null (reading 'removeChild')"))) /\
  (attached (canvas (this w)) = false ->
   snd (destroy throws w) =
     Throw (TypeError "Cannot read properties of null (reading 'removeChild')")).
Proof.
  intros Hret w1. split; [apply log_destroy | split].
  - intros Hatt.
    assert (E : destroy throws w =
                (set_this (set_canvas (set_attached false (canvas (this w))) (this w))
                   (set_log (log w ++ [Destroy])
                      (set_hexellsAnimation None
                         (match hexellsAnimation w with
                          | Some h => set_frames (remove Nat.eq_dec h (frames w)) w
                          | None => w
                          end))), Ok tt)).
    { unfold destroy, bind, page, cancelAnimationFrame, update, call, field; cbn.
      destruct (hexellsAnimation w); cbn; rewrite Hret; cbn; rewrite Hatt; reflexivity. }
    assert (Hlog1 : log w1 = log w ++ [Destroy]) by apply log_destroy.
    assert (Hatt1 : attached (canvas (this w1)) = false)
      by (subst w1; unfold exec; rewrite E; reflexivity).
    repeat split.
    + rewrite E. reflexivity.
    + exact Hatt1.
    + rewrite log_destroy, Hlog1, <- app_assoc. reflexivity.
    + intros Hret2. rewrite <- Hlog1 in Hret2.
      unfold destroy, bind, page, cancelAnimationFrame, update, call, field; cbn.
      destruct (hexellsAnimation w1); cbn; rewrite Hret2; cbn; rewrite Hatt1; reflexivity.
  - intros Hatt.
    unfold destroy, bind, page, cancelAnimationFrame, update, call, field; cbn.
    destruct (hexellsAnimation w); cbn; rewrite Hret; cbn; rewrite Hatt; reflexivity.
Qed.

Lemma destroy_twice_throws_witness :
  let w1 := exec (destroy returns) hidpi_world in
  snd (destroy returns hidpi_world) = Ok tt /\
  snd (destroy returns w1) =
    Throw (TypeError "Cannot read properties of null (reading 'removeChild')") /\
  log (exec (destroy returns) w1) = log hidpi_world ++ [Destroy; Destroy].
Proof.
  cbv zeta.
  destruct (destroy_twice_throws returns hidpi_world eq_refl) as (_ & H & _).
  destruct (H eq_refl) as (H1 & _ & H3 & H4).
  split; [exact H1 | split; [exact (H4 eq_refl) | exact H3]].
Defined.

(** ** More on [switchModel] *)






(** X13. Switching forward goes round the shuffled list: as many switches
    as there are models bring the index back, and on the way every model
    of the list is selected once. *)
Theorem switchModel_cycles throws ids i w :
  shuffledModelIds (this w) = Some ids ->
  curModelIndex (this w) = Num i ->
  0 <= i < Z.of_nat (List.length ids) ->
  curModelIndex (this (switch_times throws (List.length ids) 1 w)) = Num i /\
  (forall m, In m ids ->
     exists k, (k < List.length ids)%nat /\
               modelId (this (switch_times throws (S k) 1 w)) = Num m).
Proof.
  intros Hids Hcur Hi.
  set (N := Z.of_nat (List.length ids)) in *.
  split.
  - destruct (switch_times_index throws ids 1 (List.length ids) w i Hids Hcur Hi)
      as (_ & H & _); [lia |].
    rewrite H. fold N. f_equal.
    rewrite Z.mul_1_r, <- (Z.mul_1_l N) at 1.
    rewrite Z.mod_add by lia. apply Z.mod_small. lia.
  - intros m Hm. apply In_nth_error in Hm. destruct Hm as (p & Hp).
    assert (Hplt : (p < List.length ids)%nat)
      by (apply nth_error_Some; rewrite Hp; discriminate).
    set (k := Z.to_nat ((Z.of_nat p - i - 1) mod N)).
    assert (Hk : 0 <= (Z.of_nat p - i - 1) mod N < N) by (apply Z.mod_pos_bound; lia).
    exists k. split; [unfold k; lia |].
    destruct (switch_times_index throws ids 1 (S k) w i Hids Hcur Hi)
      as (_ & H & Hid); [lia |].
    rewrite Hid by discriminate. rewrite H. fold N.
    assert (E : (i + Z.of_nat (S k) * 1) mod N = Z.of_nat p).
    { unfold k. rewrite Nat2Z.inj_succ, Z2Nat.id by lia.
      replace (i + Z.succ ((Z.of_nat p - i - 1) mod N) * 1)
        with ((Z.of_nat p - i - 1) mod N + (i + 1)) by lia.
      rewrite Zplus_mod_idemp_l.
      replace (Z.of_nat p - i - 1 + (i + 1)) with (Z.of_nat p) by lia.
      apply Z.mod_small. lia. }
    rewrite E. unfold js_index.
    destruct (Z.ltb_spec (Z.of_nat p) 0); [lia |].
    rewrite Nat2Z.id, Hp. reflexivity.
Qed.

Lemma switchModel_cycles_witness :
  curModelIndex (this (switch_times returns 3 1 hidpi_world)) = Num 2 /\
  exists k, (k < 3)%nat /\ modelId (this (switch_times returns (S k) 1 hidpi_world)) = Num 0.
Proof.
  destruct (switchModel_cycles returns [2; 0; 1] 2 hidpi_world) as (H1 & H2);
    [reflexivity | reflexivity | cbn; lia |].
  split; [exact H1 | apply H2; cbn; auto].
Defined.

(** ** The end of a gesture *)

Lemma Qltb_false_le (a b : Q) : (b <= a)%Q -> Qltb a b = false.
Proof.
  intros H. unfold Qltb. apply Qle_bool_iff in H. rewrite H. reflexivity.
Qed.

Lemma Qltb_true_lt (a b : Q) : Qltb a b = true -> (a < b)%Q.
Proof.
  unfold Qltb. intros H. apply negb_true_iff in H.
  destruct (Qlt_le_dec a b) as [Hlt | Hle]; [exact Hlt |].
  apply Qle_bool_iff in Hle. congruence.
Qed.

(** X14. The two swipe tests of [endGestue] exclude each other, so the
    order of its branches does not matter: no gesture counts as a swipe to
    the left and as a swipe to the right. *)
Theorem swipes_exclude_each_other (g : Gesture) :
  swiped_left g = true -> swiped_right g = false.
Proof.
  unfold swiped_left, swiped_right. intros H.
  apply andb_true_iff in H. destruct H as [Hl Hmax].
  apply Qltb_true_lt in Hl. apply Qltb_true_lt in Hmax.
  apply andb_false_iff. right. apply Qltb_false_le.
  assert (Hr : (r g <= Qmax (r g) (Qmax (u g) (d g)))%Q) by apply Q.le_max_l.
  assert (Hll : (l g <= Qmax (l g) (Qmax (u g) (d g)))%Q) by apply Q.le_max_l.
  eapply Qle_trans; [| exact Hll].
  assert (Hr4 : (r g < l g * (1 # 4))%Q) by (eapply Qle_lt_trans; eassumption).
  lra.
Qed.

Lemma swipes_exclude_each_other_witness :
  swiped_left (mkGesture 3 260 (0, 0)%Q 10 0 0) = true /\
  swiped_right (mkGesture 3 260 (0, 0)%Q 10 0 0) = false.
Proof.
  split; [reflexivity |].
  apply (swipes_exclude_each_other (mkGesture 3 260 (0, 0)%Q 10 0 0)). reflexivity.
Defined.

(** X15. [endGestue] switches the model only for a quick and long
    horizontal drag. Without a gesture it does nothing; a gesture that
    lasted a second or more, or whose drag to the left and to the right
    are both at most 200 pixels, is ended without any call to the engine
    and without a change of the selected model. *)
Theorem endGestue_without_swipe throws w :
  match gesture (this w) with
  | None => endGestue throws w = (w, Ok tt)
  | Some g =>
      1000 <= now w - time g \/ ((l g <= 200)%Q /\ (r g <= 200)%Q) ->
      endGestue throws w = (set_this (set_gesture None (this w)) w, Ok tt)
  end.
Proof.
  destruct (gesture (this w)) as [g |] eqn:Hg.
  - intros Hslow. unfold endGestue, bind, field at 1. rewrite Hg.
    unfold page, assign. cbn [fst snd].
    destruct (Z.ltb_spec (now w - time g) 1000) as [Hquick | _]; [| reflexivity].
    destruct Hslow as [Hslow | [Hl Hr]]; [lia |].
    rewrite (Qltb_false_le 200 (l g) Hl), (Qltb_false_le 200 (r g) Hr). reflexivity.
  - unfold endGestue, bind, field. rewrite Hg. reflexivity.
Qed.

(** ** Touches *)






(** ** A drag from start to end *)











(** ** The selected model *)

Ltac same_leaf :=
  let w := fresh "w" in
  let H := fresh "H" in
  intros w H; unfold exec, call, assign, update;
  try match goal with |- context [if ?b then _ else _] => destruct b end;
  exact H.

Ltac same :=
  repeat first
    [ apply preserves_bind; [| intros ?]
    | apply preserves_ret
    | apply preserves_throw
    | apply preserves_field
    | apply preserves_page
    | match goal with
      | |- preserves _ (match ?x with _ => _ end) => destruct x
      end
    | same_leaf ].

Lemma consistent_switchModel throws swipe : preserves Consistent (switchModel throws swipe).
Proof.
  intros w Hw. destruct (shuffledModelIds (this w)) as [ids |] eqn:Hids.
  - unfold Consistent. rewrite (this_switchModel _ _ _ _ Hids).
    unfold set_modelId, set_curModelIndex; cbn [shuffledModelIds curModelIndex modelId].
    rewrite Hids. reflexivity.
  - assert (E : exec (switchModel throws swipe) w = w)
      by (unfold switchModel, exec, bind, field; rewrite Hids; reflexivity).
    rewrite E. exact Hw.
Qed.

Lemma consistent_setup throws names random : preserves Consistent (setup throws names random).
Proof.
  intros w _. unfold Consistent, setup, exec, bind, assign, field, call; cbn.
  destruct (throws _ _); cbn; [reflexivity |].
  destruct (responsive (this w)); reflexivity.
Qed.

Lemma consistent_touch throws pos : preserves Consistent (touch throws pos).
Proof. unfold touch. destruct pos. unfold getViewSize. same. Qed.

Lemma consistent_endGestue throws : preserves Consistent (endGestue throws).
Proof.
  unfold endGestue.
  repeat first
    [ apply consistent_switchModel
    | apply preserves_bind; [| intros ?]
    | apply preserves_ret
    | apply preserves_field
    | apply preserves_page
    | match goal with
      | |- preserves _ (match ?x with _ => _ end) => destruct x
      end
    | same_leaf ].
Qed.

Lemma consistent_step_loop throws fuel : forall i,
  preserves Consistent (step_loop throws fuel i).
Proof.
  induction fuel as [| fuel IH]; intros i; cbn [step_loop]; same; apply IH.
Qed.

Lemma consistent_render throws : preserves Consistent (render throws).
Proof.
  unfold render, getViewSize, setTimeout. same. apply consistent_step_loop.
Qed.

Lemma consistent_destroy throws : preserves Consistent (destroy throws).
Proof.
  unfold destroy, cancelAnimationFrame. same.
  intros w H. unfold exec, update. destruct a; exact H.
Qed.

Lemma consistent_handler throws on e m :
  handler throws on e = Some m -> preserves Consistent m.
Proof.
  destruct on, e; cbn; intros H; try discriminate H; injection H as <-;
    unfold onMouseDown, onMouseMove, onTouchStart, onKeyPress, touchEvent, startGestue;
    try (apply preserves_forEach; intros t);
    repeat first
      [ apply consistent_touch | apply consistent_endGestue
      | apply consistent_switchModel
      | apply preserves_bind; [| intros ?]
      | apply preserves_ret
      | apply preserves_page
      | match goal with
        | |- preserves _ (match ?x with _ => _ end) => destruct x
        end
      | same_leaf ].
Qed.

Lemma consistent_dispatch throws names e w :
  Consistent w -> Consistent (dispatch throws names w e).
Proof.
  intros Hw.
  assert (Hd : Consistent (deliver throws e w)).
  { unfold deliver. generalize (listeners w). intros ls. revert w Hw.
    induction ls as [| on ls IH]; intros w Hw; cbn [fold_left].
    - exact Hw.
    - apply IH. destruct (handler throws on e) as [m |] eqn:Hm; [| exact Hw].
      eapply consistent_handler; eassumption. }
  destruct e; try exact Hd; cbn [dispatch].
  - apply consistent_setup, Hw.
  - destruct (intervals w); [exact Hw | apply consistent_switchModel, Hw].
  - destruct (timeouts w); exact Hw.
  - destruct (frames w); [exact Hw | apply consistent_render; exact Hw].
  - exact Hw.
  - exact Hw.
  - exact Hw.
  - destruct (gui (this w)); exact Hw.
  - destruct (gui (this w)); exact Hw.
  - apply consistent_destroy, Hw.
Qed.

(** X18. In every world the event loop reaches from a new instance,
    [modelId] is the entry of [shuffledModelIds] at [curModelIndex] once
    [setup] has run: the two fields never drift apart, whatever the events
    and whatever the engine does with the calls. *)
Theorem modelId_follows_the_index throws names env canvas options w0 es :
  snd (constructor throws env canvas options) = Ok w0 ->
  let w := run throws names w0 es in
  forall ids, shuffledModelIds (this w) = Some ids ->
              modelId (this w) = js_index ids (curModelIndex (this w)).
Proof.
  intros Hctor w.
  assert (H : Consistent w).
  { subst w.
    assert (H0 : Consistent w0).
    { destruct (constructor_ok _ _ _ _ _ Hctor) as (pp & _ & _ & _ & Hs & _).
      unfold Consistent. rewrite Hs. exact I. }
    clear Hctor. revert w0 H0.
    induction es as [| e es IH]; intros w0 H0; cbn [run fold_left];
      [exact H0 | apply IH, consistent_dispatch, H0]. }
  intros ids Hids. unfold Consistent in H. rewrite Hids in H. exact H.
Qed.

Lemma modelId_follows_the_index_witness :
  snd (constructor returns sample_browser hidpi_canvas Options.empty) = Ok sample_new /\
  modelId (this (run returns sample_names sample_new sample_events)) =
    js_index [1; 2; 0]
      (curModelIndex (this (run returns sample_names sample_new sample_events))).
Proof.
  split; [reflexivity |].
  apply (modelId_follows_the_index returns sample_names sample_browser hidpi_canvas
           Options.empty sample_new sample_events); reflexivity.
Defined.

(** ** The size of the canvas over the frames *)







(** ** Drag and displacement *)




(** ** [setup], all or nothing *)

Lemma setup_outcome throws names random w :
  let ids := shuffle random names in
  let paint := Paint 0 0 (-1) (js_index ids (js_index ids (Num 0))) in
  snd (setup throws names random w) =
    (if throws (log w) paint then Throw (Thrown paint) else Ok tt) /\
  hexellsAnimation (exec (setup throws names random) w) =
    (if throws (log w) paint then hexellsAnimation w else Some (nextHandle w)).
Proof.
  cbv zeta. unfold setup, exec, bind, assign, field, call; cbn.
  destruct (throws _ _); cbn; [repeat split |].
  destruct (responsive (this w)); cbn; repeat split.
Qed.

(** X22. [setup] registers everything or nothing. If its paint of the
    field throws, it ends there: no listener, no timer and no animation
    frame is registered. If the paint returns, a responsive instance gets
    the seven listeners and no timer, any other instance gets the timer
    and no listener, and in both cases one animation frame is requested
    and its handle kept in [hexellsAnimation]. *)
Theorem setup_registers_all_or_nothing throws names random w :
  let ids := shuffle random names in
  let paint := Paint 0 0 (-1) (js_index ids (js_index ids (Num 0))) in
  let w' := exec (setup throws names random) w in
  (throws (log w) paint = true ->
   snd (setup throws names random w) = Throw (Thrown paint) /\
   listeners w' = listeners w /\ intervals w' = intervals w /\
   frames w' = frames w /\ hexellsAnimation w' = hexellsAnimation w) /\
  (throws (log w) paint = false ->
   snd (setup throws names random w) = Ok tt /\
   frames w' = frames w ++ [nextHandle w] /\
   hexellsAnimation w' = Some (nextHandle w) /\
   (listeners w', intervals w') =
     (if responsive (this w) then (listeners w ++ responsive_listeners, intervals w)
      else (listeners w, S (intervals w)))).
Proof.
  cbv zeta.
  destruct (setup_page throws names random w) as (_ & Hreg & Hf & _).
  destruct (setup_outcome throws names random w) as (Hres & Ha).
  unfold registered in Hreg.
  split; intros Hpaint; rewrite Hpaint in Hreg, Hf, Hres, Ha.
  - injection Hreg as Hl Hi. repeat split; assumption.
  - repeat split; assumption.
Qed.

Lemma setup_registers_all_or_nothing_witness :
  let w' := exec (setup returns sample_names sample_random) sample_new in
  snd (setup returns sample_names sample_random sample_new) = Ok tt /\
  frames w' = [0%nat] /\
  hexellsAnimation w' = Some 0%nat /\
  (listeners w', intervals w') = ([], 1%nat).
Proof.
  cbv zeta.
  destruct (setup_registers_all_or_nothing returns sample_names sample_random sample_new)
    as (_ & H).
  exact (H eq_refl).
Defined.
